(** * sql-proxy: a shallow embedding of [proxy/client.go] and of the
    inbound relay, with the properties of the tunnelling core.

    Layout:
    - [Go]        the few Go values the code manipulates (errors, uint64,
                  durations);
    - [Verifier]  [genVerifyPeerCertificateFunc];
    - [Relay]     [myCopy], [logError], [copyThenClose];
    - [Session]   [handleConn], alone and interleaved with other sessions
                  over the shared [connectionsCounter];
    - [Lifecycle] [listen], [Shutdown], [Run];
    - [Sockets]   keep-alive on the accepted and on the dialed socket;
    - [Inbound]   [realMain] of the inbound server. *)

From Stdlib Require Import ZArith List String Bool Lia PeanoNat.
From Stdlib Require Import Init.Byte.
Import ListNotations.

Local Open Scope string_scope.
Local Open Scope list_scope.
Local Open Scope Z_scope.

(* ===================================================================== *)
(** ** Go values *)
(* ===================================================================== *)

Module Go.

(** Go's [error] values.  [EOF] is the sentinel [io.EOF]; [LibErr] is an
    error produced by the runtime or a library (network, TLS, x509, the
    certificate source); [Errorf] is [fmt.Errorf format args...], kept
    unformatted. *)
Inductive error : Type :=
| EOF
| LibErr (msg : string)
| Errorf (format : string) (args : list arg)
with arg : Type :=
| AStr (s : string)
| ANum (n : Z)
| ADuration (ns : Z)
| AErr (e : error).

(** [err == io.EOF]: identity with the sentinel. *)
Definition is_EOF (e : error) : bool :=
  match e with EOF => true | _ => false end.

(** [uint64] arithmetic wraps modulo 2^64. *)
Definition two64 : Z := 2 ^ 64.

(** [^uint64(0)], all bits set. *)
Definition max_uint64 : Z := two64 - 1.

(** [atomic.AddUint64(&x, delta)]: the new value of [x]. *)
Definition AddUint64 (x delta : Z) : Z := (x + delta) mod two64.

(** [time.Duration] counts nanoseconds. *)
Definition Millisecond : Z := 1000000.
Definition Second : Z := 1000 * Millisecond.
Definition Minute : Z := 60 * Second.

Lemma two64_pos : 0 < two64.
Proof. unfold two64. lia. Qed.

Lemma AddUint64_range x d : 0 <= AddUint64 x d < two64.
Proof. unfold AddUint64. apply Z.mod_pos_bound, two64_pos. Qed.

Lemma AddUint64_incr x : 0 <= x -> x + 1 < two64 -> AddUint64 x 1 = x + 1.
Proof. intros. unfold AddUint64. apply Z.mod_small. lia. Qed.

(** Adding [^uint64(0)] is a decrement whenever the counter is positive. *)
Lemma AddUint64_decr x : 0 < x -> x < two64 -> AddUint64 x max_uint64 = x - 1.
Proof.
  intros. unfold AddUint64, max_uint64.
  replace (x + (two64 - 1)) with (x - 1 + 1 * two64) by ring.
  rewrite Z.mod_add by (pose proof two64_pos; lia).
  apply Z.mod_small. lia.
Qed.

(** At zero it wraps to the largest value. *)
Lemma AddUint64_decr_zero : AddUint64 0 max_uint64 = max_uint64.
Proof. reflexivity. Qed.

End Go.
Import Go.

(* ===================================================================== *)
(** ** The peer verifier *)
(* ===================================================================== *)

Module Verifier.

(** [x509.VerifyOptions]: the code fills [Roots] only, so
    [Intermediates] keeps its zero value, the empty pool. *)
Record VerifyOptions (Certificate : Type) : Type := mkVerifyOptions {
  Roots : list Certificate;
  Intermediates : list Certificate
}.
Arguments mkVerifyOptions {Certificate} _ _.
Arguments Roots {Certificate} _.
Arguments Intermediates {Certificate} _.

Section PeerVerifier.

(** What [crypto/x509] provides: the certificate type, its
    [Subject.CommonName], [x509.ParseCertificate] and
    [Certificate.Verify]. *)
Variable Certificate : Type.
Variable CommonName : Certificate -> string.
Variable ParseCertificate : list byte -> Certificate + error.
Variable Verify : Certificate -> VerifyOptions Certificate -> option error.

(** The closure returned by [genVerifyPeerCertificateFunc instanceName
    pool], applied to [rawCerts] and [verifiedChains].  [None] is the
    [nil] error. *)
Definition genVerifyPeerCertificateFunc
    (instanceName : string) (pool : list Certificate)
    (rawCerts : list (list byte))
    (verifiedChains : list (list Certificate)) : option error :=
  match rawCerts with
  | [] => Some (Errorf "no certificate to verify" [])
  | raw0 :: _ =>
      match ParseCertificate raw0 with
      | inr err =>
          Some (Errorf "x509.ParseCertificate(rawCerts[0]) returned error: %v"
                       [AErr err])
      | inl cert =>
          let opts := mkVerifyOptions pool [] in
          match Verify cert opts with
          | Some err => Some err
          | None =>
              if negb (String.eqb (CommonName cert) instanceName)
              then Some (Errorf "certificate had CN %q, expected %q"
                                [AStr (CommonName cert); AStr instanceName])
              else None
          end
      end
  end.

(** The options the closure hands to [Verify]: the pinned pool as roots
    and no intermediates. *)
Definition pinned_opts (pool : list Certificate) : VerifyOptions Certificate :=
  mkVerifyOptions pool [].

(** The four failures, named after the step that produces them. *)
Definition errNoCertificate : error := Errorf "no certificate to verify" [].

Definition errParse (err : error) : error :=
  Errorf "x509.ParseCertificate(rawCerts[0]) returned error: %v" [AErr err].

Definition errCommonName (got expected : string) : error :=
  Errorf "certificate had CN %q, expected %q" [AStr got; AStr expected].

Lemma verifier_nil instanceName pool vc :
  genVerifyPeerCertificateFunc instanceName pool [] vc = Some errNoCertificate.
Proof. reflexivity. Qed.

Lemma verifier_parse_failure instanceName pool raw0 rest vc err :
  ParseCertificate raw0 = inr err ->
  genVerifyPeerCertificateFunc instanceName pool (raw0 :: rest) vc
  = Some (errParse err).
Proof. intros H. simpl. rewrite H. reflexivity. Qed.

Lemma verifier_chain_failure instanceName pool raw0 rest vc cert err :
  ParseCertificate raw0 = inl cert ->
  Verify cert (pinned_opts pool) = Some err ->
  genVerifyPeerCertificateFunc instanceName pool (raw0 :: rest) vc = Some err.
Proof.
  intros Hp Hv. simpl. rewrite Hp. unfold pinned_opts in Hv. rewrite Hv.
  reflexivity.
Qed.

Lemma verifier_name_mismatch instanceName pool raw0 rest vc cert :
  ParseCertificate raw0 = inl cert ->
  Verify cert (pinned_opts pool) = None ->
  CommonName cert <> instanceName ->
  genVerifyPeerCertificateFunc instanceName pool (raw0 :: rest) vc
  = Some (errCommonName (CommonName cert) instanceName).
Proof.
  intros Hp Hv Hne. simpl. rewrite Hp. unfold pinned_opts in Hv. rewrite Hv.
  apply String.eqb_neq in Hne. rewrite Hne. reflexivity.
Qed.

Lemma verifier_accept instanceName pool raw0 rest vc cert :
  ParseCertificate raw0 = inl cert ->
  Verify cert (pinned_opts pool) = None ->
  CommonName cert = instanceName ->
  genVerifyPeerCertificateFunc instanceName pool (raw0 :: rest) vc = None.
Proof.
  intros Hp Hv He. simpl. rewrite Hp. unfold pinned_opts in Hv. rewrite Hv.
  apply String.eqb_eq in He. rewrite He. reflexivity.
Qed.

Lemma verifier_accept_inv instanceName pool rawCerts vc :
  genVerifyPeerCertificateFunc instanceName pool rawCerts vc = None ->
  exists raw0 rest cert,
    rawCerts = raw0 :: rest /\
    ParseCertificate raw0 = inl cert /\
    Verify cert (pinned_opts pool) = None /\
    CommonName cert = instanceName.
Proof.
  destruct rawCerts as [|raw0 rest]; simpl; [discriminate|].
  destruct (ParseCertificate raw0) as [cert|err] eqn:Hp; [|discriminate].
  destruct (Verify cert (mkVerifyOptions pool [])) as [err|] eqn:Hv;
    [discriminate|].
  destruct (String.eqb (CommonName cert) instanceName) eqn:He;
    simpl; [|discriminate].
  intros _. exists raw0, rest, cert.
  repeat split; auto. now apply String.eqb_eq.
Qed.

(** C5.  The verifier accepts exactly when the first presented certificate
    parses, chains to the pinned pool and carries a CommonName equal to
    the expected identity; otherwise it fails with the error of the first
    step that fails, the steps being tried in the order: a certificate is
    present, it parses, it chains, its name matches.  A parse failure is
    reported whatever the later steps would say, and a chain failure is
    reported whether or not the name matches. *)
Theorem peer_verifier_checks_in_order :
  forall (instanceName : string) (pool : list Certificate)
         (rawCerts : list (list byte)) (vc : list (list Certificate)),
    (genVerifyPeerCertificateFunc instanceName pool rawCerts vc = None <->
     exists raw0 rest cert,
       rawCerts = raw0 :: rest /\
       ParseCertificate raw0 = inl cert /\
       Verify cert (pinned_opts pool) = None /\
       CommonName cert = instanceName)
    /\ (rawCerts = [] ->
        genVerifyPeerCertificateFunc instanceName pool rawCerts vc
        = Some errNoCertificate)
    /\ (forall raw0 rest err,
        rawCerts = raw0 :: rest ->
        ParseCertificate raw0 = inr err ->
        genVerifyPeerCertificateFunc instanceName pool rawCerts vc
        = Some (errParse err))
    /\ (forall raw0 rest cert err,
        rawCerts = raw0 :: rest ->
        ParseCertificate raw0 = inl cert ->
        Verify cert (pinned_opts pool) = Some err ->
        genVerifyPeerCertificateFunc instanceName pool rawCerts vc = Some err)
    /\ (forall raw0 rest cert,
        rawCerts = raw0 :: rest ->
        ParseCertificate raw0 = inl cert ->
        Verify cert (pinned_opts pool) = None ->
        CommonName cert <> instanceName ->
        genVerifyPeerCertificateFunc instanceName pool rawCerts vc
        = Some (errCommonName (CommonName cert) instanceName)).
Proof.
  intros instanceName pool rawCerts vc.
  split; [split|].
  - apply verifier_accept_inv.
  - intros (raw0 & rest & cert & -> & Hp & Hv & He).
    now apply verifier_accept with cert.
  - repeat split.
    + intros ->. apply verifier_nil.
    + intros raw0 rest err ->. apply verifier_parse_failure.
    + intros raw0 rest cert err ->. apply verifier_chain_failure.
    + intros raw0 rest cert ->. apply verifier_name_mismatch.
Qed.

(** The closure never looks past [rawCerts[0]], nor at [verifiedChains]. *)
Lemma verifier_first_certificate_only instanceName pool raw0 rest vc :
  genVerifyPeerCertificateFunc instanceName pool (raw0 :: rest) vc
  = genVerifyPeerCertificateFunc instanceName pool [raw0] [].
Proof. reflexivity. Qed.

(** C10.  When the leaf chains to the pinned roots only through
    intermediates, verification fails although the peer presented those
    intermediates after the leaf: the closure parses [rawCerts[0]] alone
    and calls [Verify] with an empty intermediate pool. *)
Theorem peer_verifier_uses_no_intermediates :
  forall (instanceName : string) (pool : list Certificate)
         (raw0 : list byte) (rest : list (list byte))
         (vc : list (list Certificate))
         (leaf : Certificate) (inters : list Certificate) (err : error),
    ParseCertificate raw0 = inl leaf ->
    Forall2 (fun raw c => ParseCertificate raw = inl c) rest inters ->
    Verify leaf (mkVerifyOptions pool inters) = None ->
    Verify leaf (mkVerifyOptions pool []) = Some err ->
    genVerifyPeerCertificateFunc instanceName pool (raw0 :: rest) vc = Some err
    /\ genVerifyPeerCertificateFunc instanceName pool (raw0 :: rest) vc
       = genVerifyPeerCertificateFunc instanceName pool [raw0] [].
Proof.
  intros instanceName pool raw0 rest vc leaf inters err Hp _ _ Hv.
  split; [|apply verifier_first_certificate_only].
  now apply verifier_chain_failure with leaf.
Qed.

End PeerVerifier.

(** *** A small certificate universe, to run the verifier on.

    A certificate is a subject name and the name of its issuer; the raw
    form is one byte.  [toyVerify] builds chains the way [crypto/x509]
    does: a certificate is trusted when a root issued it, or when an
    intermediate that is itself trusted issued it. *)
Record ToyCert : Type := mkToyCert { cn : string; issuer : string }.

Definition toyRoot : ToyCert := mkToyCert "Root CA" "Root CA".
Definition toyInter : ToyCert := mkToyCert "Issuing CA" "Root CA".
Definition toyDirect : ToyCert := mkToyCert "db-primary" "Root CA".
Definition toyLeaf : ToyCert := mkToyCert "db-primary" "Issuing CA".
Definition toyRogue : ToyCert := mkToyCert "db-primary" "Mallory CA".

Definition toyParse (raw : list byte) : ToyCert + error :=
  match raw with
  | [x01] => inl toyRoot
  | [x02] => inl toyInter
  | [x03] => inl toyDirect
  | [x04] => inl toyLeaf
  | [x05] => inl toyRogue
  | _ => inr (LibErr "x509: malformed certificate")
  end.

Fixpoint toyChains (depth : nat) (roots inters : list ToyCert) (c : ToyCert)
  : bool :=
  existsb (fun r => String.eqb (issuer c) (cn r)) roots
  || match depth with
     | O => false
     | S d =>
         existsb (fun i => String.eqb (issuer c) (cn i)
                           && toyChains d roots inters i) inters
     end.

Definition toyVerify (c : ToyCert) (opts : VerifyOptions ToyCert)
  : option error :=
  if toyChains (List.length (Intermediates opts)) (Roots opts)
               (Intermediates opts) c
  then None
  else Some (LibErr "x509: certificate signed by unknown authority").

Definition toyVerifier :=
  genVerifyPeerCertificateFunc ToyCert cn toyParse toyVerify.

Example toy_accepts_direct :
  toyVerifier "db-primary" [toyRoot] [[x03]] [] = None.
Proof. reflexivity. Qed.

Example toy_rejects_empty :
  toyVerifier "db-primary" [toyRoot] [] [] = Some errNoCertificate.
Proof. reflexivity. Qed.

Example toy_rejects_malformed :
  toyVerifier "db-primary" [toyRoot] [[xff; x00]] []
  = Some (errParse (LibErr "x509: malformed certificate")).
Proof. reflexivity. Qed.

Example toy_rejects_untrusted :
  toyVerifier "db-primary" [toyRoot] [[x05]] []
  = Some (LibErr "x509: certificate signed by unknown authority").
Proof. reflexivity. Qed.

(** The comparison is exact: a different letter case is a mismatch. *)
Example toy_rejects_other_case :
  toyVerifier "DB-primary" [toyRoot] [[x03]] []
  = Some (errCommonName "db-primary" "DB-primary").
Proof. reflexivity. Qed.

(** A chain failure comes before the name comparison. *)
Example toy_chain_before_name :
  toyVerifier "some other name" [toyRoot] [[x05]] []
  = Some (LibErr "x509: certificate signed by unknown authority").
Proof. reflexivity. Qed.

Lemma peer_verifier_uses_no_intermediates_witness :
  toyVerifier "db-primary" [toyRoot] [[x04]; [x02]] []
  = Some (LibErr "x509: certificate signed by unknown authority")
  /\ toyVerifier "db-primary" [toyRoot] [[x04]; [x02]] []
     = toyVerifier "db-primary" [toyRoot] [[x04]] [].
Proof.
  apply (peer_verifier_uses_no_intermediates ToyCert cn toyParse toyVerify
           "db-primary" [toyRoot] [x04] [[x02]] [] toyLeaf [toyInter]).
  - reflexivity.
  - constructor; [reflexivity | constructor].
  - reflexivity.
  - reflexivity.
Defined.

End Verifier.

(* ===================================================================== *)
(** ** The duplex relay *)
(* ===================================================================== *)

Module Relay.

(** The two ends of a tunnel. *)
Inductive Endpoint : Type := Local | Remote.

(** A [log.Printf format args...] line, kept unformatted. *)
Record LogLine : Type := Printf { format : string; args : list arg }.

(** *** [myCopy] *)

(** What one [src.Read(buf)] hands back: the count [n], the buffer as the
    call left it, and the error. *)
Record ReadResult : Type := mkRead {
  rd_n : Z;
  rd_buf : list byte;
  rd_err : option error
}.

(** [buf := make([]byte, 4096)] *)
Definition bufSize : Z := 4096.

Section Copy.

(** An [io.Reader] and an [io.Writer], as state machines: [Read] is given
    the buffer length, [Write] the slice [buf[:n]]; the byte count a
    [Write] returns is discarded by the code. *)
Variables Src Dst : Type.
Variable Read : Src -> Z -> Src * ReadResult.
Variable Write : Dst -> list byte -> Dst * option error.

(** One turn of the [for] loop: either it goes round again, or [myCopy]
    returns [(readErr, err)].  Both carry the reader and the writer as the
    turn left them. *)
Inductive Turn : Type :=
| Again (dst : Dst) (src : Src)
| Return (readErr : bool) (err : error) (dst : Dst) (src : Src).

Definition myCopy_turn (dst : Dst) (src : Src) : Turn :=
  let '(src1, r) := Read src bufSize in
  if 0 <? rd_n r then
    let '(dst1, werr) := Write dst (firstn (Z.to_nat (rd_n r)) (rd_buf r)) in
    match werr with
    | Some werr =>
        match rd_err r with
        | None => Return false werr dst1 src1
        | Some err => Return true err dst1 src1
        end
    | None =>
        match rd_err r with
        | Some err => Return true err dst1 src1
        | None => Again dst1 src1
        end
    end
  else
    match rd_err r with
    | Some err => Return true err dst src1
    | None => Again dst src1
    end.

(** [myCopy dst src], run for at most [fuel] turns of its loop; [None]
    when it is still copying after that many. *)
Fixpoint myCopy (fuel : nat) (dst : Dst) (src : Src)
  : option (bool * error * Dst * Src) :=
  match fuel with
  | O => None
  | S fuel' =>
      match myCopy_turn dst src with
      | Return readErr err dst1 src1 => Some (readErr, err, dst1, src1)
      | Again dst1 src1 => myCopy fuel' dst1 src1
      end
  end.

(** The reader and the writer after [k] turns that all went round again. *)
Fixpoint after_turns (k : nat) (dst : Dst) (src : Src) : option (Dst * Src) :=
  match k with
  | O => Some (dst, src)
  | S k' =>
      match myCopy_turn dst src with
      | Again dst1 src1 => after_turns k' dst1 src1
      | Return _ _ _ _ => None
      end
  end.

Lemma myCopy_after_turns k : forall fuel dst src dk sk,
  after_turns k dst src = Some (dk, sk) ->
  myCopy (k + fuel) dst src = myCopy fuel dk sk.
Proof.
  induction k as [|k IH]; simpl; intros fuel dst src dk sk H.
  - now inversion H.
  - destruct (myCopy_turn dst src) as [d1 s1|]; [|discriminate].
    now apply IH.
Qed.

(** More fuel never changes a result already reached. *)
Lemma myCopy_fuel_mono fuel : forall dst src res,
  myCopy fuel dst src = Some res ->
  forall extra, myCopy (fuel + extra) dst src = Some res.
Proof.
  induction fuel as [|fuel IH]; simpl; intros dst src res H extra;
    [discriminate|].
  destruct (myCopy_turn dst src) as [d1 s1|]; auto.
Qed.

(** "The returned error will never be nil": a result always carries an
    error, and [readErr] tells which call produced it. *)
Lemma myCopy_turn_return dst src readErr err d1 s1 :
  myCopy_turn dst src = Return readErr err d1 s1 ->
  s1 = fst (Read src bufSize) /\
  if readErr
  then rd_err (snd (Read src bufSize)) = Some err
  else rd_err (snd (Read src bufSize)) = None /\
       0 < rd_n (snd (Read src bufSize)) /\
       Write dst (firstn (Z.to_nat (rd_n (snd (Read src bufSize))))
                         (rd_buf (snd (Read src bufSize))))
       = (d1, Some err).
Proof.
  unfold myCopy_turn.
  destruct (Read src bufSize) as [s r]; simpl.
  destruct (0 <? rd_n r) eqn:Hn.
  - destruct (Write dst _) as [d [we|]] eqn:Hw;
      destruct (rd_err r) as [re|] eqn:He; intros H; inversion H; subst;
        auto.
    apply Z.ltb_lt in Hn. auto.
  - destruct (rd_err r) as [re|] eqn:He; intros H; inversion H; subst; auto.
Qed.

(** C7.  After any number of turns that copied without error, the turn
    that ends [myCopy] is classified as follows (whatever fuel is left,
    as long as it covers that turn):
    - the read gave data and no error, and writing that data failed:
      [readErr = false] with the write error;
    - the read failed and gave no data: [readErr = true] with the read
      error, and the writer was not called (it is left as it was);
    - the read failed but gave data that was written: [readErr = true]
      with the read error;
    - the read gave data and an error, and writing the data failed too:
      [readErr = true] with the read error. *)
Theorem myCopy_classifies_outcome :
  forall (k fuel : nat) (dst : Dst) (src : Src) (dk : Dst) (sk : Src)
         (sk1 : Src) (r : ReadResult),
    after_turns k dst src = Some (dk, sk) ->
    Read sk bufSize = (sk1, r) ->
    (k < fuel)%nat ->
    (forall dk1 werr,
        0 < rd_n r -> rd_err r = None ->
        Write dk (firstn (Z.to_nat (rd_n r)) (rd_buf r)) = (dk1, Some werr) ->
        myCopy fuel dst src = Some (false, werr, dk1, sk1))
    /\ (forall err,
        rd_n r <= 0 -> rd_err r = Some err ->
        myCopy fuel dst src = Some (true, err, dk, sk1))
    /\ (forall dk1 err,
        0 < rd_n r -> rd_err r = Some err ->
        Write dk (firstn (Z.to_nat (rd_n r)) (rd_buf r)) = (dk1, None) ->
        myCopy fuel dst src = Some (true, err, dk1, sk1))
    /\ (forall dk1 werr err,
        0 < rd_n r -> rd_err r = Some err ->
        Write dk (firstn (Z.to_nat (rd_n r)) (rd_buf r)) = (dk1, Some werr) ->
        myCopy fuel dst src = Some (true, err, dk1, sk1)).
Proof.
  intros k fuel dst src dk sk sk1 r Hk Hr Hlt.
  replace fuel with (k + S (fuel - S k))%nat by lia.
  rewrite (myCopy_after_turns k _ _ _ _ _ Hk).
  simpl. unfold myCopy_turn. rewrite Hr.
  repeat split.
  - intros dk1 werr Hn He Hw.
    apply Z.ltb_lt in Hn. rewrite Hn, Hw, He. reflexivity.
  - intros err Hn He.
    assert ((0 <? rd_n r) = false) as -> by (apply Z.ltb_ge; lia).
    rewrite He. reflexivity.
  - intros dk1 err Hn He Hw.
    apply Z.ltb_lt in Hn. rewrite Hn, Hw, He. reflexivity.
  - intros dk1 werr err Hn He Hw.
    apply Z.ltb_lt in Hn. rewrite Hn, Hw, He. reflexivity.
Qed.

End Copy.

(** *** Scripted endpoints, to run [myCopy] on.

    The reader plays a list of read results and then reports [io.EOF];
    the writer appends what it is given and fails from its [n]-th call
    on when told to. *)
Definition ScriptReader : Type := list ReadResult.

Definition scriptRead (src : ScriptReader) (len : Z)
  : ScriptReader * ReadResult :=
  match src with
  | [] => ([], mkRead 0 [] (Some EOF))
  | r :: rest => (rest, r)
  end.

Record ScriptWriter : Type := mkWriter {
  written : list byte;
  fail_in : option nat;
  fail_with : error
}.

Definition scriptWrite (dst : ScriptWriter) (data : list byte)
  : ScriptWriter * option error :=
  match fail_in dst with
  | Some O => (dst, Some (fail_with dst))
  | Some (S n) =>
      (mkWriter (written dst ++ data) (Some n) (fail_with dst), None)
  | None => (mkWriter (written dst ++ data) None (fail_with dst), None)
  end.

Definition scriptCopy :=
  myCopy ScriptReader ScriptWriter scriptRead scriptWrite.

Definition errPipe : error := LibErr "write: broken pipe".
Definition errReset : error := LibErr "read: connection reset by peer".

(** "hello" arrives, is written, and the stream ends. *)
Example scriptCopy_clean_close :
  scriptCopy 5 (mkWriter [] None errPipe)
             [mkRead 5 ["h"; "e"; "l"; "l"; "o"]%byte None]
  = Some (true, EOF, mkWriter ["h"; "e"; "l"; "l"; "o"]%byte None errPipe, []).
Proof. reflexivity. Qed.

(** Only [buf[:n]] is written. *)
Example scriptCopy_writes_prefix :
  scriptCopy 5 (mkWriter [] None errPipe)
             [mkRead 2 ["h"; "e"; "l"; "l"; "o"]%byte None]
  = Some (true, EOF, mkWriter ["h"; "e"]%byte None errPipe, []).
Proof. reflexivity. Qed.

(** A reader that never fails keeps [myCopy] in its loop. *)
Example scriptCopy_out_of_fuel :
  scriptCopy 1 (mkWriter [] None errPipe)
             [mkRead 1 ["a"]%byte None; mkRead 1 ["b"]%byte None]
  = None.
Proof. reflexivity. Qed.

(** A write failure on cleanly read data, and a read that returns data
    together with an error while the write of that data fails. *)
Lemma myCopy_classifies_outcome_witness :
  scriptCopy 2 (mkWriter [] (Some 1%nat) errPipe)
             [mkRead 1 ["a"]%byte None; mkRead 1 ["b"]%byte None]
  = Some (false, errPipe, mkWriter ["a"]%byte (Some O) errPipe, [])
  /\ scriptCopy 2 (mkWriter [] (Some 1%nat) errPipe)
             [mkRead 1 ["a"]%byte None; mkRead 1 ["b"]%byte (Some errReset)]
     = Some (true, errReset, mkWriter ["a"]%byte (Some O) errPipe, []).
Proof.
  split.
  - refine (proj1 (myCopy_classifies_outcome ScriptReader ScriptWriter
             scriptRead scriptWrite 1 2
             (mkWriter [] (Some 1%nat) errPipe)
             [mkRead 1 ["a"]%byte None; mkRead 1 ["b"]%byte None]
             (mkWriter ["a"]%byte (Some O) errPipe)
             [mkRead 1 ["b"]%byte None] [] (mkRead 1 ["b"]%byte None)
             eq_refl eq_refl _) _ _ _ _ _);
      first [reflexivity | lia].
  - refine (proj2 (proj2 (proj2 (myCopy_classifies_outcome
             ScriptReader ScriptWriter scriptRead scriptWrite 1 2
             (mkWriter [] (Some 1%nat) errPipe)
             [mkRead 1 ["a"]%byte None; mkRead 1 ["b"]%byte (Some errReset)]
             (mkWriter ["a"]%byte (Some O) errPipe)
             [mkRead 1 ["b"]%byte (Some errReset)] []
             (mkRead 1 ["b"]%byte (Some errReset))
             eq_refl eq_refl _))) _ errPipe _ _ _ _);
      first [reflexivity | lia].
Defined.

(** *** [logError] and [copyThenClose] *)

Definition logError (readDesc writeDesc : string) (readErr : bool)
    (err : error) : LogLine :=
  let desc :=
    if readErr
    then String.append "reading data from " readDesc
    else String.append "writing data to " writeDesc in
  Printf "%v had error: %v" [AStr desc; AErr err].

(** The relay of the inbound server reports with [copyError]. *)
Definition copyError (readDesc writeDesc : string) (readErr : bool)
    (err : error) : LogLine :=
  let desc :=
    if readErr
    then String.append "Reading data from " readDesc
    else String.append "Writing data to " writeDesc in
  Printf "%v had error: %v" [AStr desc; AErr err].

(** The two copy directions of [copyThenClose]: [Upstream] is the
    goroutine it starts, [myCopy(remote, local)]; [Downstream] is its own
    [myCopy(local, remote)]. *)
Inductive Dir : Type := Upstream | Downstream.

Definition other (d : Dir) : Dir :=
  match d with Upstream => Downstream | Downstream => Upstream end.

Definition Dir_eqb (a b : Dir) : bool :=
  match a, b with
  | Upstream, Upstream | Downstream, Downstream => true
  | _, _ => false
  end.

(** What a direction reports once it holds the slot, in the outbound
    proxy ([proxy/client.go]) ... *)
Definition report_client (remoteDesc localDesc : string) (d : Dir)
    (readErr : bool) (err : error) : LogLine :=
  match d with
  | Upstream =>
      if readErr && is_EOF err
      then Printf "client closed %v" [AStr localDesc]
      else logError localDesc remoteDesc readErr err
  | Downstream =>
      if readErr && is_EOF err
      then Printf "instance %v closed connection" [AStr remoteDesc]
      else logError remoteDesc localDesc readErr err
  end.

(** ... and in the inbound server. *)
Definition report_server (remoteDesc localDesc : string) (d : Dir)
    (readErr : bool) (err : error) : LogLine :=
  match d with
  | Upstream =>
      if readErr && is_EOF err
      then Printf "Client closed %v" [AStr localDesc]
      else copyError localDesc remoteDesc readErr err
  | Downstream =>
      if readErr && is_EOF err
      then Printf "Instance %v closed connection" [AStr remoteDesc]
      else copyError remoteDesc localDesc readErr err
  end.

(** What a direction does that the other can observe. *)
Inductive Action : Type :=
| Claimed (err : error)      (* [case firstErr <- err:] was taken *)
| Missed                     (* [default:] was taken *)
| Logged (line : LogLine)
| Closed (e : Endpoint).

(** Where a direction stands in its code. *)
Inductive Pc : Type :=
| Copying
| Selecting (readErr : bool) (err : error)
| Reporting (readErr : bool) (err : error)
| ClosingRemote
| ClosingLocal
| Finished.

(** [firstErr] is the buffer of the capacity-1 channel, which nobody ever
    receives from; [trace] lists the actions in the order they happened,
    each with the direction that did it. *)
Record RelayState : Type := mkRelay {
  firstErr : option error;
  up : Pc;
  down : Pc;
  trace : list (Dir * Action)
}.

Definition relay_init : RelayState := mkRelay None Copying Copying [].

Definition pc_of (st : RelayState) (d : Dir) : Pc :=
  match d with Upstream => up st | Downstream => down st end.

Definition advance (st : RelayState) (d : Dir) (slot : option error)
    (pc : Pc) (done : list Action) : RelayState :=
  let tr := trace st ++ map (fun a => (d, a)) done in
  match d with
  | Upstream => mkRelay slot pc (down st) tr
  | Downstream => mkRelay slot (up st) pc tr
  end.

Section CopyThenClose.

(** The report of the relay at hand, and what each direction's [myCopy]
    returns when it does. *)
Variable report : Dir -> bool -> error -> LogLine.
Variable res : Dir -> bool * error.

(** One atomic step of direction [d]. *)
Definition relay_step (st : RelayState) (d : Dir) : RelayState :=
  match pc_of st d with
  | Copying =>
      advance st d (firstErr st) (Selecting (fst (res d)) (snd (res d))) []
  | Selecting readErr err =>
      match firstErr st with
      | None => advance st d (Some err) (Reporting readErr err) [Claimed err]
      | Some _ => advance st d (firstErr st) Finished [Missed]
      end
  | Reporting readErr err =>
      advance st d (firstErr st) ClosingRemote [Logged (report d readErr err)]
  | ClosingRemote => advance st d (firstErr st) ClosingLocal [Closed Remote]
  | ClosingLocal => advance st d (firstErr st) Finished [Closed Local]
  | Finished => st
  end.

(** [copyThenClose], run under a schedule: the list says which direction
    takes each successive step. *)
Definition copyThenClose (sched : list Dir) : RelayState :=
  fold_left relay_step sched relay_init.

(** The actions of one direction, in order. *)
Definition actions_of (d : Dir) (tr : list (Dir * Action)) : list Action :=
  map snd (filter (fun x => Dir_eqb (fst x) d) tr).

(** Everything the direction holding the slot does. *)
Definition cleanup (d : Dir) : list Action :=
  [Claimed (snd (res d));
   Logged (report d (fst (res d)) (snd (res d)));
   Closed Remote;
   Closed Local].

Definition is_report (a : Action) : bool :=
  match a with Logged _ => true | _ => false end.

Definition is_close (e : Endpoint) (a : Action) : bool :=
  match a, e with
  | Closed Local, Local | Closed Remote, Remote => true
  | _, _ => false
  end.

Definition count_actions (f : Action -> bool) (tr : list (Dir * Action)) : nat :=
  List.length (filter (fun x => f (snd x)) tr).

(** How many steps a direction may still have to take, and how many a
    schedule gives it. *)
Definition steps_left (pc : Pc) : nat :=
  match pc with
  | Copying => 5
  | Selecting _ _ => 4
  | Reporting _ _ => 3
  | ClosingRemote => 2
  | ClosingLocal => 1
  | Finished => 0
  end.

Definition turns_of (d : Dir) (sched : list Dir) : nat :=
  List.length (filter (Dir_eqb d) sched).

(** A direction that has not reached its [select] yet, or stands before
    it with what its [myCopy] returned. *)
Definition waiting (d : Dir) (pc : Pc) : Prop :=
  pc = Copying \/ pc = Selecting (fst (res d)) (snd (res d)).

(** The direction holding the slot has done the first [n] actions of
    [cleanup]. *)
Definition holding (d : Dir) (pc : Pc) (n : nat) : Prop :=
  (pc = Reporting (fst (res d)) (snd (res d)) /\ n = 1%nat) \/
  (pc = ClosingRemote /\ n = 2%nat) \/
  (pc = ClosingLocal /\ n = 3%nat) \/
  (pc = Finished /\ n = 4%nat).

(** The invariant of the relay: while the slot is free nothing has
    happened; once it is taken, its holder [w] took it with the first
    action of the whole trace and is somewhere along [cleanup], and the
    other direction has done nothing, or has found the slot taken and
    stopped. *)
Definition relay_inv (st : RelayState) : Prop :=
  match firstErr st with
  | None =>
      trace st = [] /\ waiting Upstream (up st) /\ waiting Downstream (down st)
  | Some e =>
      exists w n,
        e = snd (res w) /\
        holding w (pc_of st w) n /\
        actions_of w (trace st) = firstn n (cleanup w) /\
        hd_error (trace st) = Some (w, Claimed e) /\
        ((waiting (other w) (pc_of st (other w)) /\
          actions_of (other w) (trace st) = []) \/
         (pc_of st (other w) = Finished /\
          actions_of (other w) (trace st) = [Missed]))
  end.

Lemma actions_of_app d tr1 tr2 :
  actions_of d (tr1 ++ tr2) = actions_of d tr1 ++ actions_of d tr2.
Proof. unfold actions_of. now rewrite filter_app, map_app. Qed.

Lemma hd_error_app_some (A : Type) (l1 l2 : list A) (a : A) :
  hd_error l1 = Some a -> hd_error (l1 ++ l2) = Some a.
Proof. destruct l1; simpl; [discriminate | auto]. Qed.

Lemma relay_init_inv : relay_inv relay_init.
Proof. simpl. repeat split; left; reflexivity. Qed.

Lemma holding_next d :
  holding d ClosingRemote 2 /\ holding d ClosingLocal 3 /\
  holding d Finished 4 /\
  holding d (Reporting (fst (res d)) (snd (res d))) 1.
Proof. unfold holding. auto 10. Qed.

Lemma relay_step_inv st d : relay_inv st -> relay_inv (relay_step st d).
Proof.
  destruct st as [fe u dn tr].
  unfold relay_inv, relay_step; simpl.
  destruct fe as [e|].
  - intros (w & n & He & Hh & Ha & Hhd & Ho).
    destruct (Dir_eqb d w) eqn:Hdw.
    + (* the holder of the slot moves along its cleanup *)
      assert (d = w) as ->
        by (destruct d, w; simpl in Hdw; (discriminate || reflexivity)).
      destruct w; simpl in *;
        destruct Hh as [[-> ->]|[[-> ->]|[[-> ->]|[-> ->]]]]; simpl.
      1: exists Upstream, 2%nat.
      2: exists Upstream, 3%nat.
      3: exists Upstream, 4%nat.
      4: exists Upstream, 4%nat.
      5: exists Downstream, 2%nat.
      6: exists Downstream, 3%nat.
      7: exists Downstream, 4%nat.
      8: exists Downstream, 4%nat.
      all: simpl; rewrite ?actions_of_app, ?Ha; simpl; rewrite ?app_nil_r.
      all: split; [exact He|].
      all: split; [apply holding_next|].
      all: split; [reflexivity|].
      all: split; [auto using hd_error_app_some|].
      all: exact Ho.
    + (* the other direction reaches its select, or finds the slot taken *)
      assert (d = other w) as ->
        by (destruct d, w; simpl in Hdw; (discriminate || reflexivity)).
      destruct w; simpl in *;
        destruct Ho as [[[-> | ->] Hnil] | [-> Hm]]; simpl.
      1-3: exists Upstream, n.
      4-6: exists Downstream, n.
      all: simpl; rewrite ?actions_of_app, ?Ha, ?Hnil, ?Hm; simpl;
        rewrite ?app_nil_r.
      all: split; [exact He|].
      all: split; [exact Hh|].
      all: split; [reflexivity|].
      all: split; [auto using hd_error_app_some|].
      all: unfold waiting; auto.
  - intros (-> & Hu & Hd).
    destruct d; simpl.
    + destruct Hu as [-> | ->]; simpl.
      * unfold waiting. auto.
      * exists Upstream, 1%nat; simpl.
        repeat split; auto. apply holding_next.
    + destruct Hd as [-> | ->]; simpl.
      * unfold waiting. auto.
      * exists Downstream, 1%nat; simpl.
        repeat split; auto. apply holding_next.
Qed.

Lemma relay_run_inv sched : forall st,
  relay_inv st -> relay_inv (fold_left relay_step sched st).
Proof.
  induction sched as [|d sched IH]; simpl; intros st H; auto.
  apply IH, relay_step_inv, H.
Qed.

Lemma copyThenClose_inv sched : relay_inv (copyThenClose sched).
Proof. apply relay_run_inv, relay_init_inv. Qed.

Lemma count_actions_split f tr :
  count_actions f tr
  = (List.length (filter f (actions_of Upstream tr))
     + List.length (filter f (actions_of Downstream tr)))%nat.
Proof.
  unfold count_actions, actions_of.
  induction tr as [|[d a] tr IH]; simpl; [reflexivity|].
  destruct d; simpl; destruct (f a); simpl; rewrite IH; lia.
Qed.

Lemma count_actions_by_role f tr w :
  count_actions f tr
  = (List.length (filter f (actions_of w tr))
     + List.length (filter f (actions_of (other w) tr)))%nat.
Proof. rewrite count_actions_split. destruct w; simpl; lia. Qed.

(** How many reports and closes a prefix of [cleanup] holds. *)
Lemma cleanup_prefix_counts w n :
  (List.length (filter is_report (firstn n (cleanup w))) <= 1
   /\ List.length (filter (is_close Remote) (firstn n (cleanup w))) <= 1
   /\ List.length (filter (is_close Local) (firstn n (cleanup w))) <= 1)%nat.
Proof.
  unfold cleanup.
  destruct n as [|[|[|[|n]]]]; cbn; rewrite ?firstn_nil; cbn; lia.
Qed.

(** A step of a direction brings it closer to its end and leaves the
    other direction where it is. *)
Lemma relay_step_progress st d :
  (steps_left (pc_of (relay_step st d) d)
   <= Nat.pred (steps_left (pc_of st d)))%nat.
Proof.
  unfold relay_step.
  destruct d; simpl;
    [destruct (up st) eqn:E | destruct (down st) eqn:E]; simpl;
    try (destruct (firstErr st); simpl); rewrite ?E; simpl; lia.
Qed.

Lemma relay_step_other st d :
  pc_of (relay_step st d) (other d) = pc_of st (other d).
Proof.
  unfold relay_step.
  destruct d; simpl;
    [destruct (up st) | destruct (down st)]; simpl;
    try (destruct (firstErr st); simpl); reflexivity.
Qed.

Lemma relay_run_progress d sched : forall st,
  (steps_left (pc_of (fold_left relay_step sched st) d)
   <= steps_left (pc_of st d) - turns_of d sched)%nat.
Proof.
  unfold turns_of.
  induction sched as [|m sched IH]; simpl; intros st; [lia|].
  specialize (IH (relay_step st m)).
  destruct (Dir_eqb d m) eqn:E; simpl.
  - assert (d = m) as ->
      by (destruct d, m; simpl in E; (discriminate || reflexivity)).
    pose proof (relay_step_progress st m). lia.
  - assert (d = other m) as ->
      by (destruct d, m; simpl in E; (discriminate || reflexivity)).
    rewrite relay_step_other in IH. exact IH.
Qed.

(** Both directions finish as soon as the schedule gives each of them
    five steps. *)
Lemma copyThenClose_finishes sched :
  (5 <= turns_of Upstream sched)%nat ->
  (5 <= turns_of Downstream sched)%nat ->
  up (copyThenClose sched) = Finished /\
  down (copyThenClose sched) = Finished.
Proof.
  intros Hu Hd. unfold copyThenClose.
  pose proof (relay_run_progress Upstream sched relay_init) as Pu.
  pose proof (relay_run_progress Downstream sched relay_init) as Pd.
  change (steps_left (pc_of relay_init Upstream)) with 5%nat in Pu.
  change (steps_left (pc_of relay_init Downstream)) with 5%nat in Pd.
  unfold pc_of in Pu, Pd.
  split.
  - destruct (up (fold_left relay_step sched relay_init));
      try reflexivity; unfold steps_left in Pu; lia.
  - destruct (down (fold_left relay_step sched relay_init));
      try reflexivity; unfold steps_left in Pd; lia.
Qed.

(** C4, as the code has it.  Under every schedule of the two
    directions and whatever their copy loops return, at every point of
    the run:
    - the slot is free only as long as neither direction has executed
      its [select], and nothing has then been reported or closed;
    - once the slot is taken, its holder [w] took it with the first
      [select] executed, what [w] has done is an initial part of
      [claim; report; close remote; close local], and the other
      direction has done nothing but, at most, find the slot taken;
    - there is never more than one report nor more than one close of
      either endpoint;
    - once both directions have finished, exactly one of them has done
      the whole cleanup, one report and one close of each endpoint, and
      the other has closed and reported nothing;
    - both directions have finished as soon as each has been given five
      steps. *)
Theorem copyThenClose_one_cleanup :
  forall sched : list Dir,
    (firstErr (copyThenClose sched) = None ->
     trace (copyThenClose sched) = [] /\
     waiting Upstream (up (copyThenClose sched)) /\
     waiting Downstream (down (copyThenClose sched)))
    /\ (forall e,
        firstErr (copyThenClose sched) = Some e ->
        exists w : Dir,
          e = snd (res w) /\
          hd_error (trace (copyThenClose sched)) = Some (w, Claimed e) /\
          (exists n, (1 <= n)%nat /\
             actions_of w (trace (copyThenClose sched))
             = firstn n (cleanup w)) /\
          (actions_of (other w) (trace (copyThenClose sched)) = [] \/
           actions_of (other w) (trace (copyThenClose sched)) = [Missed]))
    /\ (count_actions is_report (trace (copyThenClose sched)) <= 1 /\
        count_actions (is_close Remote) (trace (copyThenClose sched)) <= 1 /\
        count_actions (is_close Local) (trace (copyThenClose sched)) <= 1)%nat
    /\ (up (copyThenClose sched) = Finished ->
        down (copyThenClose sched) = Finished ->
        exists w : Dir,
          firstErr (copyThenClose sched) = Some (snd (res w)) /\
          hd_error (trace (copyThenClose sched))
          = Some (w, Claimed (snd (res w))) /\
          actions_of w (trace (copyThenClose sched)) = cleanup w /\
          actions_of (other w) (trace (copyThenClose sched)) = [Missed] /\
          count_actions is_report (trace (copyThenClose sched)) = 1%nat /\
          count_actions (is_close Remote) (trace (copyThenClose sched))
          = 1%nat /\
          count_actions (is_close Local) (trace (copyThenClose sched))
          = 1%nat)
    /\ ((5 <= turns_of Upstream sched)%nat ->
        (5 <= turns_of Downstream sched)%nat ->
        up (copyThenClose sched) = Finished /\
        down (copyThenClose sched) = Finished).
Proof.
  intros sched.
  pose proof (copyThenClose_inv sched) as Hinv.
  unfold relay_inv in Hinv.
  destruct (firstErr (copyThenClose sched)) as [e|].
  - destruct Hinv as (w & n & He & Hh & Ha & Hhd & Ho).
    assert (Hn : (1 <= n)%nat)
      by (destruct Hh as [[_ ->]|[[_ ->]|[[_ ->]|[_ ->]]]]; lia).
    assert (Hloser :
      actions_of (other w) (trace (copyThenClose sched)) = [] \/
      actions_of (other w) (trace (copyThenClose sched)) = [Missed])
      by (destruct Ho as [[_ H]|[_ H]]; auto).
    assert (Hzero : forall f, f Missed = false ->
      List.length (filter f (actions_of (other w)
                               (trace (copyThenClose sched)))) = 0%nat)
      by (intros f Hf; destruct Hloser as [-> | ->]; simpl;
          rewrite ?Hf; reflexivity).
    split; [discriminate|].
    split.
    { intros e' He'. inversion He'; subst e'.
      exists w. split; [exact He|]. split; [exact Hhd|].
      split; [exists n; split; [exact Hn | exact Ha] | exact Hloser]. }
    split.
    { rewrite !(count_actions_by_role _ _ w), Ha, !Hzero by reflexivity.
      pose proof (cleanup_prefix_counts w n). lia. }
    split; [|apply copyThenClose_finishes].
    intros Hup Hdown.
    assert (pc_of (copyThenClose sched) w = Finished) as Hw
      by (destruct w; assumption).
    assert (pc_of (copyThenClose sched) (other w) = Finished) as How
      by (destruct w; assumption).
    assert (n = 4%nat) as ->.
    { rewrite Hw in Hh.
      destruct Hh as [[? _]|[[? _]|[[? _]|[_ ?]]]];
        try discriminate; assumption. }
    assert (actions_of (other w) (trace (copyThenClose sched)) = [Missed])
      as Hm.
    { destruct Ho as [[[Hc | Hs] _]|[_ H]]; auto;
        rewrite How in *; discriminate. }
    exists w. subst e.
    split; [reflexivity|]. split; [exact Hhd|].
    split; [exact Ha|]. split; [exact Hm|].
    rewrite !(count_actions_by_role _ _ w), Ha, Hm.
    repeat split; reflexivity.
  - destruct Hinv as (Ht & Hu & Hd).
    split; [intros _; auto|].
    split; [discriminate|].
    split; [rewrite Ht; unfold count_actions; simpl; lia|].
    split; [|apply copyThenClose_finishes].
    intros Hup Hdown. exfalso.
    destruct Hu as [Hu|Hu]; rewrite Hup in Hu; discriminate.
Qed.

End CopyThenClose.

(** *** Two runs of the outbound relay *)

Definition errClosed : error := LibErr "use of closed network connection".

Definition demo_res (d : Dir) : bool * error :=
  match d with
  | Upstream => (true, EOF)
  | Downstream => (true, errClosed)
  end.

Definition demo_relay :=
  copyThenClose (report_client "remote connection" "local connection on [::1]:3306")
                demo_res.

(** The client hangs up first: the started goroutine cleans up, and the
    caller, whose read then fails on the closed connection, does
    nothing. *)
Example relay_client_closes_first :
  trace (demo_relay [Upstream; Upstream; Upstream; Upstream; Upstream;
                     Downstream; Downstream])
  = [(Upstream, Claimed EOF);
     (Upstream, Logged (Printf "client closed %v"
                               [AStr "local connection on [::1]:3306"]));
     (Upstream, Closed Remote);
     (Upstream, Closed Local);
     (Downstream, Missed)].
Proof. reflexivity. Qed.

(** The order that counts is the order of the two [select]s: here both
    loops have returned, the goroutine's first, and the caller is the
    first at its [select], so the caller cleans up. *)
Example relay_caller_selects_first :
  trace (demo_relay [Upstream; Downstream; Downstream; Upstream;
                     Downstream; Downstream; Downstream])
  = [(Downstream, Claimed errClosed);
     (Upstream, Missed);
     (Downstream, Logged (Printf "%v had error: %v"
                            [AStr "reading data from remote connection";
                             AErr errClosed]));
     (Downstream, Closed Remote);
     (Downstream, Closed Local)].
Proof. reflexivity. Qed.

(** The direction whose copy loop ends first need not be the one that
    cleans up.  The goroutine's loop has returned while the caller is
    still copying; then the caller's loop returns and the caller is the
    first at its [select]: the caller holds the slot, reports and closes,
    and the goroutine, although it ended first, finds the slot taken. *)
Lemma first_to_end_can_lose_the_slot :
  up (demo_relay [Upstream]) = Selecting true EOF
  /\ down (demo_relay [Upstream]) = Copying
  /\ firstErr (demo_relay [Upstream; Downstream; Downstream; Upstream;
                           Downstream; Downstream; Downstream])
     = Some errClosed
  /\ actions_of Downstream
       (trace (demo_relay [Upstream; Downstream; Downstream; Upstream;
                           Downstream; Downstream; Downstream]))
     = [Claimed errClosed;
        Logged (Printf "%v had error: %v"
                  [AStr "reading data from remote connection";
                   AErr errClosed]);
        Closed Remote;
        Closed Local]
  /\ actions_of Upstream
       (trace (demo_relay [Upstream; Downstream; Downstream; Upstream;
                           Downstream; Downstream; Downstream]))
     = [Missed].
Proof. repeat split; reflexivity. Qed.


(** *** More on [myCopy]: what a result tells, and what gets copied *)

Section CopyFacts.

Variables Src Dst : Type.
Variable Read : Src -> Z -> Src * ReadResult.
Variable Write : Dst -> list byte -> Dst * option error.

(** X1.  Whenever [myCopy] returns, the flag tells which call failed:
    [readErr = true] means the last [Read] returned the error that is
    reported; [readErr = false] means that [Read] returned no error and
    some data, and the [Write] of that data returned the error that is
    reported.  Every turn before the last one went without error. *)
Theorem myCopy_result_tells_the_failing_call :
  forall (fuel : nat) (dst : Dst) (src : Src)
         (readErr : bool) (err : error) (d : Dst) (s : Src),
    myCopy Src Dst Read Write fuel dst src = Some (readErr, err, d, s) ->
    exists (k : nat) (dk : Dst) (sk : Src),
      (k < fuel)%nat /\
      after_turns Src Dst Read Write k dst src = Some (dk, sk) /\
      s = fst (Read sk bufSize) /\
      if readErr
      then rd_err (snd (Read sk bufSize)) = Some err
      else rd_err (snd (Read sk bufSize)) = None /\
           0 < rd_n (snd (Read sk bufSize)) /\
           Write dk (firstn (Z.to_nat (rd_n (snd (Read sk bufSize))))
                            (rd_buf (snd (Read sk bufSize))))
           = (d, Some err).
Proof.
  induction fuel as [|fuel IH]; simpl; intros dst src readErr err d s H;
    [discriminate|].
  destruct (myCopy_turn Src Dst Read Write dst src) as [d1 s1|re e d1 s1]
    eqn:Hturn.
  - destruct (IH _ _ _ _ _ _ H) as (k & dk & sk & Hk & Hafter & Hrest).
    exists (S k), dk, sk. split; [lia|]. split; [|exact Hrest].
    simpl. rewrite Hturn. exact Hafter.
  - inversion H; subst.
    exists O, dst, src. split; [lia|]. split; [reflexivity|].
    apply (myCopy_turn_return Src Dst Read Write _ _ _ _ _ _ Hturn).
Qed.

(** A writer that takes everything and never fails: it appends. *)
Definition appendWrite (out : list byte) (data : list byte)
  : list byte * option error :=
  (out ++ data, None).

(** What a reader hands out until its first error, within [fuel] reads:
    the bytes, in order, and the error with the reader as that read left
    it ([None] when no read has failed yet). *)
Fixpoint drain (fuel : nat) (src : Src)
  : list byte * option (error * Src) :=
  match fuel with
  | O => ([], None)
  | S fuel' =>
      let data :=
        if 0 <? rd_n (snd (Read src bufSize))
        then firstn (Z.to_nat (rd_n (snd (Read src bufSize))))
                    (rd_buf (snd (Read src bufSize)))
        else [] in
      match rd_err (snd (Read src bufSize)) with
      | Some err => (data, Some (err, fst (Read src bufSize)))
      | None =>
          (data ++ fst (drain fuel' (fst (Read src bufSize))),
           snd (drain fuel' (fst (Read src bufSize))))
      end
  end.

(** X2.  Into a writer that never fails, [myCopy] copies the stream as
    it is: when it returns, the writer has received, in order and with
    nothing added or lost, the bytes of every read up to and including
    the one that failed, and the error reported is that read's, with
    [readErr = true]; and it returns exactly when a read has failed. *)
Theorem myCopy_copies_the_stream :
  forall (fuel : nat) (src : Src) (out : list byte),
    myCopy Src (list byte) Read appendWrite fuel out src
    = match snd (drain fuel src) with
      | Some (err, s) => Some (true, err, out ++ fst (drain fuel src), s)
      | None => None
      end.
Proof.
  induction fuel as [|fuel IH]; intros src out; [reflexivity|].
  simpl. unfold myCopy_turn, appendWrite.
  destruct (Read src bufSize) as [s1 r]; simpl.
  destruct (0 <? rd_n r); destruct (rd_err r) as [e|]; simpl.
  - reflexivity.
  - rewrite IH. destruct (snd (drain fuel s1)) as [[e s]|]; [|reflexivity].
    now rewrite app_assoc.
  - now rewrite app_nil_r.
  - rewrite IH. reflexivity.
Qed.

End CopyFacts.

(** Two reads of "he" and "llo", the second one together with a reset:
    all five bytes arrive. *)
Example scriptCopy_keeps_data_of_failing_read :
  myCopy ScriptReader (list byte) scriptRead appendWrite 3 []
         [mkRead 2 ["h"; "e"]%byte None;
          mkRead 3 ["l"; "l"; "o"]%byte (Some errReset)]
  = Some (true, errReset, ["h"; "e"; "l"; "l"; "o"]%byte, []).
Proof. reflexivity. Qed.

Lemma myCopy_result_tells_the_failing_call_witness :
  exists (k : nat) (dk : ScriptWriter) (sk : ScriptReader),
    (k < 2)%nat /\
    after_turns ScriptReader ScriptWriter scriptRead scriptWrite k
      (mkWriter [] (Some 1%nat) errPipe)
      [mkRead 1 ["a"]%byte None; mkRead 1 ["b"]%byte None]
    = Some (dk, sk) /\
    [] = fst (scriptRead sk bufSize) /\
    (rd_err (snd (scriptRead sk bufSize)) = None /\
     0 < rd_n (snd (scriptRead sk bufSize)) /\
     scriptWrite dk (firstn (Z.to_nat (rd_n (snd (scriptRead sk bufSize))))
                            (rd_buf (snd (scriptRead sk bufSize))))
     = (mkWriter ["a"]%byte (Some O) errPipe, Some errPipe)).
Proof.
  exact (myCopy_result_tells_the_failing_call ScriptReader ScriptWriter
           scriptRead scriptWrite 2
           (mkWriter [] (Some 1%nat) errPipe)
           [mkRead 1 ["a"]%byte None; mkRead 1 ["b"]%byte None]
           false errPipe (mkWriter ["a"]%byte (Some O) errPipe) []
           eq_refl).
Defined.

(** *** More on [copyThenClose]: what holds when it returns *)

Section CopyThenCloseFacts.

Variable report : Dir -> bool -> error -> LogLine.
Variable res : Dir -> bool * error.

(** X3.  [copyThenClose] returns when its own direction has finished.
    By then the slot has been taken: either by the caller itself, which
    then has reported and closed both endpoints before returning, or by
    the started goroutine, in which case the caller has done nothing at
    all and the goroutine's part of the cleanup may still be under way. *)
Theorem copyThenClose_returns_after_the_claim :
  forall sched : list Dir,
    down (copyThenClose report res sched) = Finished ->
    exists w : Dir,
      firstErr (copyThenClose report res sched) = Some (snd (res w)) /\
      match w with
      | Downstream =>
          actions_of Downstream (trace (copyThenClose report res sched))
          = cleanup report res Downstream /\
          actions_of Upstream (trace (copyThenClose report res sched)) = []
          \/
          actions_of Downstream (trace (copyThenClose report res sched))
          = cleanup report res Downstream /\
          actions_of Upstream (trace (copyThenClose report res sched))
          = [Missed]
      | Upstream =>
          actions_of Downstream (trace (copyThenClose report res sched))
          = [Missed] /\
          exists n, (1 <= n)%nat /\
            actions_of Upstream (trace (copyThenClose report res sched))
            = firstn n (cleanup report res Upstream)
      end.
Proof.
  intros sched Hdown.
  pose proof (copyThenClose_inv report res sched) as Hinv.
  unfold relay_inv in Hinv.
  destruct (firstErr (copyThenClose report res sched)) as [e|].
  - destruct Hinv as (w & n & He & Hh & Ha & _ & Ho).
    exists w. subst e. split; [reflexivity|].
    destruct w; simpl in *.
    + destruct Ho as [[[Hc | Hs] _]|[_ Hm]];
        try (rewrite Hdown in *; discriminate).
      split; [exact Hm|]. exists n. split; [|exact Ha].
      destruct Hh as [[_ ->]|[[_ ->]|[[_ ->]|[_ ->]]]]; lia.
    + rewrite Hdown in Hh.
      assert (n = 4%nat) as ->
        by (destruct Hh as [[? _]|[[? _]|[[? _]|[_ ?]]]];
            try discriminate; assumption).
      destruct Ho as [[_ Hnil]|[_ Hm]]; [left | right]; split; assumption.
  - destruct Hinv as (_ & _ & [Hc | Hs]); rewrite Hdown in *; discriminate.
Qed.

End CopyThenCloseFacts.

(** The goroutine holds the slot and has only reported when the caller
    finds it taken and returns: neither endpoint is closed yet. *)
Example relay_returns_before_goroutine_closes :
  trace (demo_relay [Upstream; Upstream; Upstream; Downstream; Downstream])
  = [(Upstream, Claimed EOF);
     (Upstream, Logged (Printf "client closed %v"
                               [AStr "local connection on [::1]:3306"]));
     (Downstream, Missed)]
  /\ down (demo_relay [Upstream; Upstream; Upstream; Downstream; Downstream])
     = Finished.
Proof. split; reflexivity. Qed.

Lemma copyThenClose_returns_after_the_claim_witness :
  exists w : Dir,
    firstErr (demo_relay [Upstream; Upstream; Upstream;
                          Downstream; Downstream])
    = Some (snd (demo_res w)) /\
    match w with
    | Downstream =>
        actions_of Downstream
          (trace (demo_relay [Upstream; Upstream; Upstream;
                              Downstream; Downstream]))
        = cleanup (report_client "remote connection"
                     "local connection on [::1]:3306") demo_res Downstream /\
        actions_of Upstream
          (trace (demo_relay [Upstream; Upstream; Upstream;
                              Downstream; Downstream])) = []
        \/
        actions_of Downstream
          (trace (demo_relay [Upstream; Upstream; Upstream;
                              Downstream; Downstream]))
        = cleanup (report_client "remote connection"
                     "local connection on [::1]:3306") demo_res Downstream /\
        actions_of Upstream
          (trace (demo_relay [Upstream; Upstream; Upstream;
                              Downstream; Downstream])) = [Missed]
    | Upstream =>
        actions_of Downstream
          (trace (demo_relay [Upstream; Upstream; Upstream;
                              Downstream; Downstream])) = [Missed] /\
        exists n, (1 <= n)%nat /\
          actions_of Upstream
            (trace (demo_relay [Upstream; Upstream; Upstream;
                                Downstream; Downstream]))
          = firstn n (cleanup (report_client "remote connection"
                                 "local connection on [::1]:3306")
                              demo_res Upstream)
    end.
Proof.
  exact (copyThenClose_returns_after_the_claim
           (report_client "remote connection" "local connection on [::1]:3306")
           demo_res
           [Upstream; Upstream; Upstream; Downstream; Downstream]
           eq_refl).
Defined.

End Relay.

(* ===================================================================== *)
(** ** The tunnel session *)
(* ===================================================================== *)

Module Session.

Import Relay.

(** [const keepAlivePeriod = time.Minute] *)
Definition keepAlivePeriod : Z := Minute.

(** The [Client] struct.  [CertSource] is part of the environment of a
    session (see [SessionEnv]). *)
Record Client : Type := mkClient {
  RemoteAddr : string;
  LocalAddr : string;
  Instance : string;
  MaxConnections : Z;
  connectionsCounter : Z
}.

(** What the outside world answers to one call of [handleConn]: the
    certificate source, the dialer, the accepted connection (whether it
    has the keep-alive methods and what they return, and its local
    address), the TLS handshake, and the relay (what each copy loop
    returns and how the two directions are scheduled). *)
Record SessionEnv : Type := mkEnv {
  certResult : option error;
  dialResult : option error;
  isKeepAliver : bool;
  setKeepAliveResult : option error;
  setKeepAlivePeriodResult : option error;
  localAddrString : string;
  handshakeResult : option error;
  relayResults : Dir -> bool * error;
  relaySchedule : list Dir
}.

(** What a session does that can be seen from outside. *)
Inductive Event : Type :=
| CounterAdd (delta : Z) (new : Z)      (* [atomic.AddUint64] and its result *)
| FetchCert (instance branch : string)
| DialRemote (addr : string)
| SetKeepAlive (e : Endpoint) (on : bool)
| SetKeepAlivePeriod (e : Endpoint) (period : Z)
| Handshake
| Close (e : Endpoint)
| Log (line : LogLine)
| InRelay (d : Dir) (a : Action).

(** [handleConn] has returned [err], or is still inside [copyThenClose]
    (its own copy direction has not finished). *)
Inductive Outcome : Type :=
| Returned (err : option error)
| Relaying.

Record Run : Type := mkRun {
  outcome : Outcome;
  events : list Event;
  counter_after : Z
}.

(** The test of line 142, on the value the increment returned. *)
Definition over_limit (c : Client) (active : Z) : bool :=
  (0 <? MaxConnections c) && (MaxConnections c <? active).

Definition errTooMany (c : Client) : error :=
  Errorf "too many open connections (max %d)" [ANum (MaxConnections c)].

Definition errCert (err : error) : error :=
  Errorf "couldn't retrieve certs from cert source: %s" [AErr err].

Definition errDial (c : Client) (err : error) : error :=
  Errorf "couldn't connect to %q: %v" [AStr (RemoteAddr c); AErr err].

Definition errHandshake (err : error) : error :=
  Errorf "couldn't initiate TLS handshake to remote addr: %s" [AErr err].

(** Lines 187-195: the keep-alive settings, applied to [conn], the
    accepted connection. *)
Definition keepAliveBlock (env : SessionEnv) : list Event :=
  if isKeepAliver env then
    match setKeepAliveResult env with
    | Some err =>
        [SetKeepAlive Local true;
         Log (Printf "couldn't set KeepAlive to true: %v" [AErr err])]
    | None =>
        match setKeepAlivePeriodResult env with
        | Some _ =>
            [SetKeepAlive Local true;
             SetKeepAlivePeriod Local keepAlivePeriod;
             Log (Printf "couldn't set KeepAlivePeriod to %v"
                         [ADuration keepAlivePeriod])]
        | None =>
            [SetKeepAlive Local true;
             SetKeepAlivePeriod Local keepAlivePeriod]
        end
    end
  else
    [Log (Printf
       "KeepAlive not supported: long-running tcp connections may be killed by the OS."
       [])].

(** Lines 204-209: [copyThenClose(secureConn, conn, ...)].  Closing
    [secureConn] closes the dialed connection under it. *)
Definition relayBlock (env : SessionEnv) : RelayState :=
  copyThenClose
    (report_client "remote connection"
       (String.append "local connection on " (localAddrString env)))
    (relayResults env) (relaySchedule env).

Definition relayEvents (st : RelayState) : list Event :=
  map (fun x => InRelay (fst x) (snd x)) (trace st).

(** Lines 142-210, between the increment and the deferred decrement. *)
Definition handleConn_body (c : Client) (env : SessionEnv) (active : Z)
  : Outcome * list Event :=
  if over_limit c active then
    (Returned (Some (errTooMany c)), [Close Local])
  else
    match certResult env with
    | Some err =>
        (Returned (Some (errCert err)), [FetchCert (Instance c) "branch"])
    | None =>
        match dialResult env with
        | Some err =>
            (Returned (Some (errDial c err)),
             [FetchCert (Instance c) "branch";
              DialRemote (RemoteAddr c);
              Close Local])
        | None =>
            match handshakeResult env with
            | Some err =>
                (Returned (Some (errHandshake err)),
                 [FetchCert (Instance c) "branch"; DialRemote (RemoteAddr c)]
                 ++ keepAliveBlock env
                 ++ [Handshake; Close Remote])
            | None =>
                let st := relayBlock env in
                (match down st with
                 | Finished => Returned None
                 | _ => Relaying
                 end,
                 [FetchCert (Instance c) "branch"; DialRemote (RemoteAddr c)]
                 ++ keepAliveBlock env
                 ++ [Handshake]
                 ++ relayEvents st)
            end
        end
    end.

(** [handleConn], run alone on the client [c] (the instance name is the
    client's, as [listen] passes it): the increment, the body, and the
    deferred decrement once the body returns. *)
Definition handleConn (c : Client) (env : SessionEnv) : Run :=
  let active := AddUint64 (connectionsCounter c) 1 in
  let '(out, evs) := handleConn_body c env active in
  match out with
  | Returned err =>
      mkRun out
            ([CounterAdd 1 active] ++ evs
             ++ [CounterAdd max_uint64 (AddUint64 active max_uint64)])
            (AddUint64 active max_uint64)
  | Relaying =>
      mkRun out ([CounterAdd 1 active] ++ evs) active
  end.

(** *** One session on its own *)

Definition is_increment (e : Event) : bool :=
  match e with CounterAdd d _ => d =? 1 | _ => false end.

Definition is_decrement (e : Event) : bool :=
  match e with CounterAdd d _ => d =? max_uint64 | _ => false end.

Definition is_close_of (p : Endpoint) (e : Event) : bool :=
  match e, p with
  | Close Local, Local | Close Remote, Remote
  | InRelay _ (Closed Local), Local | InRelay _ (Closed Remote), Remote =>
      true
  | _, _ => false
  end.

Definition count_events (f : Event -> bool) (evs : list Event) : nat :=
  List.length (filter f evs).

(** The endpoints a run has opened: the accepted connection is open from
    the start, the remote one once the dial has succeeded. *)
Definition opened (c : Client) (env : SessionEnv) (p : Endpoint) : bool :=
  match p with
  | Local => true
  | Remote =>
      negb (over_limit c (AddUint64 (connectionsCounter c) 1))
      && match certResult env, dialResult env with
         | None, None => true
         | _, _ => false
         end
  end.

Lemma count_events_app f l1 l2 :
  count_events f (l1 ++ l2) = (count_events f l1 + count_events f l2)%nat.
Proof. unfold count_events. now rewrite filter_app, length_app. Qed.

(** A test on events that only counter updates can pass. *)
Definition counter_only (g : Event -> bool) : Prop :=
  forall e, g e = true -> exists d n, e = CounterAdd d n.

Lemma counter_only_tests : counter_only is_increment /\ counter_only is_decrement.
Proof. split; intros [] H; try discriminate; eauto. Qed.

Lemma counter_only_false g e :
  counter_only g -> (forall d n, e <> CounterAdd d n) -> g e = false.
Proof.
  intros Hg He. destruct (g e) eqn:E; auto.
  destruct (Hg e E) as (d & n & ->). now destruct (He d n).
Qed.

Ltac no_counter Hg :=
  unfold count_events; simpl;
  rewrite ?(counter_only_false _ _ Hg) by discriminate;
  try reflexivity.

Lemma keepAliveBlock_no_counter env g :
  counter_only g -> count_events g (keepAliveBlock env) = 0%nat.
Proof.
  intros Hg. unfold keepAliveBlock.
  destruct (isKeepAliver env); [|no_counter Hg].
  destruct (setKeepAliveResult env);
    [|destruct (setKeepAlivePeriodResult env)]; no_counter Hg.
Qed.

Lemma relayEvents_no_counter st g :
  counter_only g -> count_events g (relayEvents st) = 0%nat.
Proof.
  intros Hg. unfold relayEvents, count_events.
  induction (trace st) as [|x tr IH]; simpl; [reflexivity|].
  now rewrite (counter_only_false _ _ Hg) by discriminate.
Qed.

(** The body never touches the counter. *)
Lemma handleConn_body_no_counter c env active g :
  counter_only g ->
  count_events g (snd (handleConn_body c env active)) = 0%nat.
Proof.
  intros Hg.
  pose proof (keepAliveBlock_no_counter env g Hg) as Hk.
  unfold handleConn_body.
  destruct (over_limit c active); [no_counter Hg|].
  destruct (certResult env); [no_counter Hg|].
  destruct (dialResult env); [no_counter Hg|].
  destruct (handshakeResult env); unfold snd;
    rewrite !count_events_app, Hk, ?relayEvents_no_counter by exact Hg;
    no_counter Hg.
Qed.

(** The events of a run, around those of its body. *)
Lemma handleConn_events c env :
  events (handleConn c env)
  = [CounterAdd 1 (AddUint64 (connectionsCounter c) 1)]
    ++ snd (handleConn_body c env (AddUint64 (connectionsCounter c) 1))
    ++ match outcome (handleConn c env) with
       | Returned _ =>
           [CounterAdd max_uint64
              (AddUint64 (AddUint64 (connectionsCounter c) 1) max_uint64)]
       | Relaying => []
       end.
Proof.
  unfold handleConn.
  destruct (handleConn_body c env _) as [[err|] evs]; simpl;
    rewrite ?app_nil_r; reflexivity.
Qed.

(** The increment followed by the decrement gives the counter back. *)
Lemma AddUint64_round_trip x :
  0 <= x < two64 -> AddUint64 (AddUint64 x 1) max_uint64 = x.
Proof.
  intros H. unfold AddUint64, max_uint64.
  rewrite Zplus_mod_idemp_l.
  replace (x + 1 + (two64 - 1)) with (x + 1 * two64) by ring.
  rewrite Z.mod_add by (pose proof two64_pos; lia).
  apply Z.mod_small, H.
Qed.

(** Denial, as the session sees it: the limit is set and the counter,
    before this session, is at or above it. *)
Lemma over_limit_iff c :
  0 <= connectionsCounter c -> connectionsCounter c + 1 < two64 ->
  over_limit c (AddUint64 (connectionsCounter c) 1) = true
  <-> 0 < MaxConnections c /\ MaxConnections c <= connectionsCounter c.
Proof.
  intros H0 H1. unfold over_limit.
  rewrite AddUint64_incr by assumption.
  rewrite andb_true_iff, !Z.ltb_lt. lia.
Qed.

Lemma handleConn_denied c env :
  over_limit c (AddUint64 (connectionsCounter c) 1) = true ->
  handleConn c env
  = mkRun (Returned (Some (errTooMany c)))
          [CounterAdd 1 (AddUint64 (connectionsCounter c) 1);
           Close Local;
           CounterAdd max_uint64
             (AddUint64 (AddUint64 (connectionsCounter c) 1) max_uint64)]
          (AddUint64 (AddUint64 (connectionsCounter c) 1) max_uint64).
Proof. intros H. unfold handleConn, handleConn_body. now rewrite H. Qed.

(** C2, as the code has it.  Every call of [handleConn], admitted or
    denied, increments the counter exactly once, as its first action; a
    call that returns, whatever the path, decrements it exactly once, as
    its last action, and a call still relaying has not decremented yet.
    A denied call is no exception: it increments, closes the accepted
    connection, decrements and returns the too-many-connections error,
    which leaves the counter where it was; and a call is denied exactly
    when a limit is set and the counter, before the call, is at or above
    it. *)
Theorem handleConn_pairs_increment_and_release :
  forall (c : Client) (env : SessionEnv),
    hd_error (events (handleConn c env))
    = Some (CounterAdd 1 (AddUint64 (connectionsCounter c) 1))
    /\ count_events is_increment (events (handleConn c env)) = 1%nat
    /\ (forall err,
        outcome (handleConn c env) = Returned err ->
        count_events is_decrement (events (handleConn c env)) = 1%nat /\
        last (events (handleConn c env)) Handshake
        = CounterAdd max_uint64
            (AddUint64 (AddUint64 (connectionsCounter c) 1) max_uint64) /\
        counter_after (handleConn c env)
        = AddUint64 (AddUint64 (connectionsCounter c) 1) max_uint64 /\
        (0 <= connectionsCounter c < two64 ->
         counter_after (handleConn c env) = connectionsCounter c))
    /\ (outcome (handleConn c env) = Relaying ->
        count_events is_decrement (events (handleConn c env)) = 0%nat)
    /\ (over_limit c (AddUint64 (connectionsCounter c) 1) = true ->
        outcome (handleConn c env) = Returned (Some (errTooMany c)) /\
        events (handleConn c env)
        = [CounterAdd 1 (AddUint64 (connectionsCounter c) 1);
           Close Local;
           CounterAdd max_uint64
             (AddUint64 (AddUint64 (connectionsCounter c) 1) max_uint64)])
    /\ (0 <= connectionsCounter c -> connectionsCounter c + 1 < two64 ->
        (over_limit c (AddUint64 (connectionsCounter c) 1) = true
         <-> 0 < MaxConnections c /\
             MaxConnections c <= connectionsCounter c)).
Proof.
  intros c env.
  destruct counter_only_tests as [Hinc Hdec].
  pose proof (handleConn_events c env) as Hev.
  pose proof (handleConn_body_no_counter c env
                (AddUint64 (connectionsCounter c) 1)) as Hbody.
  split; [rewrite Hev; reflexivity|].
  split.
  { rewrite Hev, !count_events_app, (Hbody _ Hinc).
    destruct (outcome (handleConn c env)); reflexivity. }
  split.
  { intros err Hout. rewrite Hout in Hev.
    split; [|split; [|split]].
    - rewrite Hev, !count_events_app, (Hbody _ Hdec). reflexivity.
    - rewrite Hev, app_assoc. apply last_last.
    - revert Hout. unfold handleConn.
      destruct (handleConn_body c env _) as [[e|] evs]; simpl;
        [reflexivity | discriminate].
    - intros Hrange. revert Hout. unfold handleConn.
      destruct (handleConn_body c env _) as [[e|] evs]; simpl;
        [intros _; now apply AddUint64_round_trip | discriminate]. }
  split.
  { intros Hout. rewrite Hout in Hev.
    rewrite Hev, !count_events_app, (Hbody _ Hdec). reflexivity. }
  split.
  { intros Hover. rewrite (handleConn_denied c env Hover). auto. }
  apply over_limit_iff.
Qed.

(** *** Sample sessions *)

Definition demoClient (max counter : Z) : Client :=
  mkClient "backend:3306" "127.0.0.1:3307" "X" max counter.

Definition errSource : error := LibErr "source unavailable".
Definition errRefused : error := LibErr "dial tcp: connection refused".
Definition errBadCert : error :=
  LibErr "x509: certificate signed by unknown authority".

(** All goes well, and the client hangs up first. *)
Definition envOk : SessionEnv :=
  mkEnv None None true None None "127.0.0.1:3307" None demo_res
        [Upstream; Upstream; Upstream; Upstream; Upstream;
         Downstream; Downstream].

Definition envCertFails : SessionEnv :=
  mkEnv (Some errSource) None true None None "127.0.0.1:3307" None demo_res [].

Definition envDialFails : SessionEnv :=
  mkEnv None (Some errRefused) true None None "127.0.0.1:3307" None demo_res [].

Definition envHandshakeFails : SessionEnv :=
  mkEnv None None true None None "127.0.0.1:3307" (Some errBadCert)
        demo_res [].

Example handleConn_ok :
  handleConn (demoClient 0 0) envOk
  = mkRun (Returned None)
      [CounterAdd 1 1;
       FetchCert "X" "branch";
       DialRemote "backend:3306";
       SetKeepAlive Local true;
       SetKeepAlivePeriod Local keepAlivePeriod;
       Handshake;
       InRelay Upstream (Claimed EOF);
       InRelay Upstream
         (Logged (Printf "client closed %v"
                         [AStr "local connection on 127.0.0.1:3307"]));
       InRelay Upstream (Closed Remote);
       InRelay Upstream (Closed Local);
       InRelay Downstream Missed;
       CounterAdd max_uint64 0]
      0.
Proof. reflexivity. Qed.

Example handleConn_dial_fails :
  handleConn (demoClient 0 0) envDialFails
  = mkRun (Returned (Some (errDial (demoClient 0 0) errRefused)))
      [CounterAdd 1 1;
       FetchCert "X" "branch";
       DialRemote "backend:3306";
       Close Local;
       CounterAdd max_uint64 0]
      0.
Proof. reflexivity. Qed.

(** With a limit of one and one session active, the next call is denied:
    the counter goes to two and back to one. *)
Lemma denied_session_increments :
  0 < MaxConnections (demoClient 1 1)
  /\ MaxConnections (demoClient 1 1) <= connectionsCounter (demoClient 1 1)
  /\ handleConn (demoClient 1 1) envOk
     = mkRun (Returned (Some (errTooMany (demoClient 1 1))))
         [CounterAdd 1 2; Close Local; CounterAdd max_uint64 1] 1
  /\ count_events is_increment (events (handleConn (demoClient 1 1) envOk))
     <> 0%nat.
Proof.
  split; [reflexivity|]. split; [discriminate|].
  split; [reflexivity|]. discriminate.
Qed.

(** *** Which endpoints a failing session closes *)

Lemma handleConn_cert_failure c env err :
  over_limit c (AddUint64 (connectionsCounter c) 1) = false ->
  certResult env = Some err ->
  handleConn c env
  = mkRun (Returned (Some (errCert err)))
          [CounterAdd 1 (AddUint64 (connectionsCounter c) 1);
           FetchCert (Instance c) "branch";
           CounterAdd max_uint64
             (AddUint64 (AddUint64 (connectionsCounter c) 1) max_uint64)]
          (AddUint64 (AddUint64 (connectionsCounter c) 1) max_uint64).
Proof.
  intros H1 H2. unfold handleConn, handleConn_body. now rewrite H1, H2.
Qed.

Lemma handleConn_dial_failure c env err :
  over_limit c (AddUint64 (connectionsCounter c) 1) = false ->
  certResult env = None ->
  dialResult env = Some err ->
  handleConn c env
  = mkRun (Returned (Some (errDial c err)))
          [CounterAdd 1 (AddUint64 (connectionsCounter c) 1);
           FetchCert (Instance c) "branch";
           DialRemote (RemoteAddr c);
           Close Local;
           CounterAdd max_uint64
             (AddUint64 (AddUint64 (connectionsCounter c) 1) max_uint64)]
          (AddUint64 (AddUint64 (connectionsCounter c) 1) max_uint64).
Proof.
  intros H1 H2 H3. unfold handleConn, handleConn_body.
  now rewrite H1, H2, H3.
Qed.

Lemma keepAliveBlock_closes_nothing env p :
  count_events (is_close_of p) (keepAliveBlock env) = 0%nat.
Proof.
  unfold keepAliveBlock.
  destruct (isKeepAliver env); [|destruct p; reflexivity].
  destruct (setKeepAliveResult env);
    [|destruct (setKeepAlivePeriodResult env)];
    destruct p; reflexivity.
Qed.

Lemma handleConn_handshake_failure c env err :
  over_limit c (AddUint64 (connectionsCounter c) 1) = false ->
  certResult env = None ->
  dialResult env = None ->
  handshakeResult env = Some err ->
  outcome (handleConn c env) = Returned (Some (errHandshake err))
  /\ events (handleConn c env)
     = [CounterAdd 1 (AddUint64 (connectionsCounter c) 1);
        FetchCert (Instance c) "branch";
        DialRemote (RemoteAddr c)]
       ++ keepAliveBlock env
       ++ [Handshake; Close Remote;
           CounterAdd max_uint64
             (AddUint64 (AddUint64 (connectionsCounter c) 1) max_uint64)]
  /\ count_events (is_close_of Remote) (events (handleConn c env)) = 1%nat
  /\ count_events (is_close_of Local) (events (handleConn c env)) = 0%nat.
Proof.
  intros H1 H2 H3 H4.
  assert (events (handleConn c env)
     = [CounterAdd 1 (AddUint64 (connectionsCounter c) 1);
        FetchCert (Instance c) "branch";
        DialRemote (RemoteAddr c)]
       ++ keepAliveBlock env
       ++ [Handshake; Close Remote;
           CounterAdd max_uint64
             (AddUint64 (AddUint64 (connectionsCounter c) 1) max_uint64)])
    as Hev.
  { unfold handleConn, handleConn_body. rewrite H1, H2, H3, H4. simpl.
    rewrite <- !app_assoc. reflexivity. }
  split.
  { unfold handleConn, handleConn_body. now rewrite H1, H2, H3, H4. }
  split; [exact Hev|].
  rewrite Hev, !count_events_app.
  rewrite (keepAliveBlock_closes_nothing env Remote).
  rewrite (keepAliveBlock_closes_nothing env Local).
  split; reflexivity.
Qed.

(** C3, on the code.  When the certificate source fails, [handleConn]
    returns without closing the accepted connection, and when the TLS
    handshake fails it closes the remote connection only; in both runs
    the accepted connection was open and the counter is released. *)
Theorem handleConn_failures_leave_local_open :
  (outcome (handleConn (demoClient 0 0) envCertFails)
   = Returned (Some (errCert errSource))
   /\ opened (demoClient 0 0) envCertFails Local = true
   /\ count_events (is_close_of Local)
        (events (handleConn (demoClient 0 0) envCertFails)) = 0%nat
   /\ count_events is_decrement
        (events (handleConn (demoClient 0 0) envCertFails)) = 1%nat)
  /\ (outcome (handleConn (demoClient 0 0) envHandshakeFails)
      = Returned (Some (errHandshake errBadCert))
      /\ opened (demoClient 0 0) envHandshakeFails Local = true
      /\ opened (demoClient 0 0) envHandshakeFails Remote = true
      /\ count_events (is_close_of Remote)
           (events (handleConn (demoClient 0 0) envHandshakeFails)) = 1%nat
      /\ count_events (is_close_of Local)
           (events (handleConn (demoClient 0 0) envHandshakeFails)) = 0%nat
      /\ count_events is_decrement
           (events (handleConn (demoClient 0 0) envHandshakeFails)) = 1%nat).
Proof. repeat split; reflexivity. Qed.

(** *** Keep-alive *)

(** X8.  What does hold: a session that gets past the dial turns
    keep-alive on for the accepted connection when it has the methods,
    and whatever they return, or when it lacks them, the session goes on
    to the handshake all the same. *)
Lemma handleConn_keepalive_on_local c env :
  over_limit c (AddUint64 (connectionsCounter c) 1) = false ->
  certResult env = None ->
  dialResult env = None ->
  (isKeepAliver env = true ->
   In (SetKeepAlive Local true) (events (handleConn c env)))
  /\ (isKeepAliver env = false ->
      In (Log (Printf
           "KeepAlive not supported: long-running tcp connections may be killed by the OS."
           [])) (events (handleConn c env)))
  /\ In Handshake (events (handleConn c env)).
Proof.
  intros H1 H2 H3.
  rewrite handleConn_events. unfold handleConn_body.
  rewrite H1, H2, H3.
  repeat split.
  - intros Hk. apply in_or_app. right. apply in_or_app. left.
    destruct (handshakeResult env); unfold snd;
      apply in_or_app; right; apply in_or_app; left;
      unfold keepAliveBlock; rewrite Hk;
      destruct (setKeepAliveResult env);
      [|destruct (setKeepAlivePeriodResult env)| |
       destruct (setKeepAlivePeriodResult env)]; simpl; auto.
  - intros Hk. apply in_or_app. right. apply in_or_app. left.
    destruct (handshakeResult env); unfold snd;
      apply in_or_app; right; apply in_or_app; left;
      unfold keepAliveBlock; rewrite Hk; simpl; auto.
  - apply in_or_app. right. apply in_or_app. left.
    destruct (handshakeResult env); unfold snd;
      apply in_or_app; right; apply in_or_app; right; simpl; auto.
Qed.

(** X9.  The results of the keep-alive calls never change how a session
    ends. *)
Lemma handleConn_keepalive_never_fails c env ka r1 r2 :
  outcome (handleConn c
             (mkEnv (certResult env) (dialResult env) ka r1 r2
                    (localAddrString env) (handshakeResult env)
                    (relayResults env) (relaySchedule env)))
  = outcome (handleConn c env).
Proof.
  unfold handleConn, handleConn_body; simpl.
  destruct (over_limit c _); [reflexivity|].
  destruct (certResult env); [reflexivity|].
  destruct (dialResult env); [reflexivity|].
  destruct (handshakeResult env); [reflexivity|].
  unfold relayBlock; simpl.
  match goal with |- context [down ?st] => destruct (down st) end;
    reflexivity.
Qed.

(** *** Sessions side by side, over the shared counter

    Each accepted connection gets its own goroutine running [handleConn];
    the only thing they share is [connectionsCounter], which they touch
    by atomic additions.  With respect to the counter a session goes
    through the stages below; a world is the client with the sessions
    started so far, and a schedule says which session moves next or that
    a new connection arrives. *)

Inductive Stage : Type :=
| Accepted                  (* [handleConn] called, line 137 not run yet *)
| Counted (active : Z)      (* incremented, at the test of line 142 *)
| Rejected (active : Z)     (* over the limit, [conn] closed, not returned yet *)
| Tunnelling (active : Z)   (* past the test, somewhere in lines 147-210 *)
| Released.                 (* returned: the deferred decrement has run *)

Definition set_counter (c : Client) (v : Z) : Client :=
  mkClient (RemoteAddr c) (LocalAddr c) (Instance c) (MaxConnections c) v.

(** One atomic step of a session: the new counter and the new stage. *)
Definition stage_step (c : Client) (s : Stage) : Z * Stage :=
  match s with
  | Accepted =>
      let active := AddUint64 (connectionsCounter c) 1 in
      (active, Counted active)
  | Counted active =>
      (connectionsCounter c,
       if over_limit c active then Rejected active else Tunnelling active)
  | Rejected _ | Tunnelling _ =>
      (AddUint64 (connectionsCounter c) max_uint64, Released)
  | Released => (connectionsCounter c, Released)
  end.

(** The step of the [i]-th session; nothing happens when there is no
    such session. *)
Fixpoint step_at (c : Client) (i : nat) (l : list Stage) : Z * list Stage :=
  match l, i with
  | [], _ => (connectionsCounter c, [])
  | s :: rest, O => (fst (stage_step c s), snd (stage_step c s) :: rest)
  | s :: rest, S j => (fst (step_at c j rest), s :: snd (step_at c j rest))
  end.

Record World : Type := mkWorld {
  client : Client;
  sessions : list Stage
}.

Inductive Move : Type :=
| Arrive
| Step (i : nat).

Definition world_step (w : World) (m : Move) : World :=
  match m with
  | Arrive => mkWorld (client w) (sessions w ++ [Accepted])
  | Step i =>
      mkWorld (set_counter (client w)
                           (fst (step_at (client w) i (sessions w))))
              (snd (step_at (client w) i (sessions w)))
  end.

(** The proxy starts with no session and a counter at zero. *)
Definition world_start (c : Client) : World := mkWorld (set_counter c 0) [].

Definition world_run (c : Client) (sched : list Move) : World :=
  fold_left world_step sched (world_start c).

Definition counter (w : World) : Z := connectionsCounter (client w).

(** Sessions between their increment and their decrement ... *)
Definition is_live (s : Stage) : bool :=
  match s with
  | Counted _ | Rejected _ | Tunnelling _ => true
  | Accepted | Released => false
  end.

(** ... those that passed the test of line 142 ... *)
Definition is_admitted (s : Stage) : bool :=
  match s with Tunnelling _ => true | _ => false end.

(** ... those that have not reached it yet or failed it ... *)
Definition is_pending (s : Stage) : bool :=
  match s with Counted _ | Rejected _ => true | _ => false end.

(** ... and those whose increment returned at most [v]. *)
Definition is_low (v : Z) (s : Stage) : bool :=
  match s with
  | Counted a | Rejected a | Tunnelling a => a <=? v
  | Accepted | Released => false
  end.

Definition count_stages (f : Stage -> bool) (l : list Stage) : nat :=
  List.length (filter f l).

(** A stage agrees with the test its session made. *)
Definition stage_ok (c : Client) (s : Stage) : Prop :=
  match s with
  | Rejected a => over_limit c a = true
  | Tunnelling a => over_limit c a = false
  | _ => True
  end.

(** The solo run of [handleConn] and the three steps of a lone session
    tell the same story. *)
Lemma lone_session_agrees c env err :
  outcome (handleConn c env) = Returned err ->
  fst (step_at c 0 [Accepted]) = AddUint64 (connectionsCounter c) 1
  /\ snd (step_at (set_counter c (AddUint64 (connectionsCounter c) 1)) 0
            [Counted (AddUint64 (connectionsCounter c) 1)])
     = [if over_limit c (AddUint64 (connectionsCounter c) 1)
        then Rejected (AddUint64 (connectionsCounter c) 1)
        else Tunnelling (AddUint64 (connectionsCounter c) 1)]
  /\ counter (world_step
                (world_step
                   (world_step (mkWorld c [Accepted]) (Step 0)) (Step 0))
                (Step 0))
     = counter_after (handleConn c env).
Proof.
  intros Hout. split; [reflexivity|]. split; [reflexivity|].
  revert Hout. unfold handleConn.
  destruct (handleConn_body c env _) as [[e|] evs]; simpl;
    [intros _ | discriminate].
  unfold counter, over_limit; simpl.
  destruct (_ && _); reflexivity.
Qed.

(** What a step of the [i]-th session does to the list. *)
Lemma step_at_effect c : forall l i,
  step_at c i l = (connectionsCounter c, l) \/
  exists pre s post,
    l = pre ++ s :: post /\
    step_at c i l
    = (fst (stage_step c s), pre ++ snd (stage_step c s) :: post).
Proof.
  induction l as [|s rest IH]; intros i; simpl.
  - left. destruct i; reflexivity.
  - destruct i as [|j].
    + right. exists [], s, rest. split; reflexivity.
    + destruct (IH j) as [E | (pre & s' & post & -> & E)];
        simpl; rewrite E; simpl.
      * left. reflexivity.
      * right. exists (s :: pre), s', post. split; reflexivity.
Qed.

Lemma count_stages_mid f pre s post :
  count_stages f (pre ++ s :: post)
  = (count_stages f pre + (if f s then 1 else 0) + count_stages f post)%nat.
Proof.
  unfold count_stages. rewrite filter_app, length_app. simpl.
  destruct (f s); simpl; lia.
Qed.

Lemma count_stages_le_length f l :
  (count_stages f l <= List.length l)%nat.
Proof. apply filter_length_le. Qed.

Lemma count_stages_mono f g l :
  (forall s, f s = true -> g s = true) ->
  (count_stages f l <= count_stages g l)%nat.
Proof.
  intros H. unfold count_stages.
  induction l as [|s l IH]; simpl; [lia|].
  destruct (f s) eqn:Ef.
  - rewrite (H s Ef). simpl. lia.
  - destruct (g s); simpl; lia.
Qed.

Lemma is_low_live v s : is_low v s = true -> is_live s = true.
Proof. destruct s; simpl; auto. Qed.

Lemma stage_ok_set_counter c v l :
  Forall (stage_ok c) l -> Forall (stage_ok (set_counter c v)) l.
Proof.
  apply Forall_impl. intros [] H; simpl in *; auto.
Qed.

(** The invariant of a world, as long as fewer than 2^64 sessions have
    been started: the counter is the number of live sessions; for every
    [v], at most [v] live sessions hold an increment result of at most
    [v]; and every session past the test stands where the test sent it. *)
Definition world_inv (w : World) : Prop :=
  Z.of_nat (List.length (sessions w)) < two64 ->
  counter w = Z.of_nat (count_stages is_live (sessions w))
  /\ (forall v, 0 <= v ->
        Z.of_nat (count_stages (is_low v) (sessions w)) <= v)
  /\ Forall (stage_ok (client w)) (sessions w).

Lemma world_start_inv c : world_inv (world_start c).
Proof.
  intros _. unfold counter. simpl.
  split; [reflexivity|]. split; [intros v Hv; exact Hv | constructor].
Qed.

Lemma world_step_inv w m : world_inv w -> world_inv (world_step w m).
Proof.
  destruct w as [c l]. unfold world_inv, counter.
  destruct m as [|i]; simpl.
  - (* a connection arrives *)
    rewrite length_app. simpl. intros H Hlen.
    destruct H as (Hc & Hlow & Hok); [lia|].
    split; [|split].
    + rewrite Hc, count_stages_mid. unfold count_stages. simpl. lia.
    + intros v Hv. specialize (Hlow v Hv).
      rewrite count_stages_mid. unfold count_stages at 2. simpl. lia.
    + apply Forall_app. split; [exact Hok|]. constructor; simpl; auto.
  - destruct (step_at_effect c l i) as [E | (pre & s & post & -> & E)];
      rewrite E; simpl.
    + intros H Hlen. destruct (H Hlen) as (Hc & Hlow & Hok).
      split; [exact Hc|]. split; [exact Hlow|].
      now apply stage_ok_set_counter.
    + rewrite !length_app. simpl. intros H Hlen.
      destruct (H Hlen) as (Hc & Hlow & Hok). clear H.
      apply Forall_app in Hok. destruct Hok as [Hpre Hpost].
      inversion Hpost as [|? ? Hs Hpost']; subst.
      pose proof (count_stages_le_length is_live pre) as Lpre.
      pose proof (count_stages_le_length is_live post) as Lpost.
      rewrite count_stages_mid in Hc.
      assert (Hlow' : forall v, 0 <= v ->
                Z.of_nat (count_stages (is_low v) pre
                          + (if is_low v s then 1 else 0)
                          + count_stages (is_low v) post) <= v)
        by (intros v Hv; rewrite <- count_stages_mid; auto).
      assert (Hrest : forall s',
                stage_ok c s' ->
                Forall (stage_ok (set_counter c (fst (stage_step c s))))
                       (pre ++ s' :: post)).
      { intros s' Hs'. apply stage_ok_set_counter, Forall_app.
        split; [exact Hpre|]. constructor; assumption. }
      destruct s as [|a|a|a|]; simpl in *.
      * (* the increment *)
        assert (AddUint64 (connectionsCounter c) 1 = connectionsCounter c + 1)
          as Hadd by (apply AddUint64_incr; lia).
        split; [|split].
        -- rewrite Hadd, Hc, count_stages_mid. simpl. lia.
        -- intros v Hv. rewrite count_stages_mid. simpl.
           specialize (Hlow' v Hv).
           pose proof (count_stages_mono (is_low v) is_live pre
                         (is_low_live v)).
           pose proof (count_stages_mono (is_low v) is_live post
                         (is_low_live v)).
           rewrite Hadd.
           destruct (connectionsCounter c + 1 <=? v) eqn:Ev.
           ++ apply Z.leb_le in Ev. lia.
           ++ lia.
        -- apply (Hrest (Counted _)). exact I.
      * (* the test *)
        split; [|split].
        -- rewrite Hc, count_stages_mid.
           destruct (over_limit c a); simpl; lia.
        -- intros v Hv. rewrite count_stages_mid.
           specialize (Hlow' v Hv).
           destruct (over_limit c a); simpl; exact Hlow'.
        -- destruct (over_limit c a) eqn:Eo; apply Hrest; exact Eo.
      * (* the release of a rejected session *)
        assert (AddUint64 (connectionsCounter c) max_uint64
                = connectionsCounter c - 1)
          as Hsub by (apply AddUint64_decr; lia).
        split; [|split].
        -- rewrite Hsub, Hc, count_stages_mid. simpl. lia.
        -- intros v Hv. rewrite count_stages_mid. simpl.
           specialize (Hlow' v Hv). destruct (a <=? v); lia.
        -- apply (Hrest Released). exact I.
      * (* the release of an admitted session *)
        assert (AddUint64 (connectionsCounter c) max_uint64
                = connectionsCounter c - 1)
          as Hsub by (apply AddUint64_decr; lia).
        split; [|split].
        -- rewrite Hsub, Hc, count_stages_mid. simpl. lia.
        -- intros v Hv. rewrite count_stages_mid. simpl.
           specialize (Hlow' v Hv). destruct (a <=? v); lia.
        -- apply (Hrest Released). exact I.
      * (* a session that has returned stays put *)
        split; [|split].
        -- rewrite Hc, count_stages_mid. simpl. lia.
        -- intros v Hv. rewrite count_stages_mid. simpl.
           exact (Hlow' v Hv).
        -- apply (Hrest Released). exact I.
Qed.

Lemma world_run_inv sched : forall w,
  world_inv w -> world_inv (fold_left world_step sched w).
Proof.
  induction sched as [|m sched IH]; simpl; intros w H; auto.
  apply IH, world_step_inv, H.
Qed.

(** The limit never changes. *)
Lemma world_run_max sched : forall w,
  MaxConnections (client (fold_left world_step sched w))
  = MaxConnections (client w).
Proof.
  induction sched as [|m sched IH]; simpl; intros w; [reflexivity|].
  rewrite IH. destruct m; reflexivity.
Qed.

Lemma live_split l :
  count_stages is_live l
  = (count_stages is_admitted l + count_stages is_pending l)%nat.
Proof.
  unfold count_stages.
  induction l as [|s l IH]; simpl; [reflexivity|].
  destruct s; simpl; lia.
Qed.

Lemma admitted_are_low c l :
  0 < MaxConnections c ->
  Forall (stage_ok c) l ->
  (count_stages is_admitted l
   <= count_stages (is_low (MaxConnections c)) l)%nat.
Proof.
  intros Hmax Hok. unfold count_stages.
  induction Hok as [|s l Hs Hok IH]; simpl; [lia|].
  destruct s as [|a|a|a|]; simpl in *;
    [ lia
    | destruct (_ <=? _); simpl; lia
    | destruct (_ <=? _); simpl; lia
    |
    | lia ].
  unfold over_limit in Hs.
  apply andb_false_iff in Hs.
  destruct Hs as [Hs|Hs]; [apply Z.ltb_ge in Hs; lia|].
  apply Z.ltb_ge in Hs.
  assert ((a <=? MaxConnections c) = true) as -> by (apply Z.leb_le; lia).
  simpl. lia.
Qed.

(** C1, as the code has it.  In every interleaving of sessions (fewer
    than 2^64 of them), at every point: the counter is exactly the number
    of sessions between their increment and their deferred decrement, so
    it is never negative and no decrement ever wraps it around; when a
    positive limit is set, the sessions that passed the admission test
    number at most that limit; and the counter exceeds the limit by at
    most the number of sessions that are about to be tested or have been
    rejected and not released yet. *)
Theorem counter_counts_live_sessions :
  forall (c : Client) (sched : list Move),
    Z.of_nat (List.length (sessions (world_run c sched))) < two64 ->
    counter (world_run c sched)
    = Z.of_nat (count_stages is_live (sessions (world_run c sched)))
    /\ 0 <= counter (world_run c sched) < two64
    /\ counter (world_run c sched)
       = Z.of_nat (count_stages is_admitted (sessions (world_run c sched)))
         + Z.of_nat (count_stages is_pending (sessions (world_run c sched)))
    /\ (0 < MaxConnections c ->
        Z.of_nat (count_stages is_admitted (sessions (world_run c sched)))
        <= MaxConnections c
        /\ counter (world_run c sched)
           <= MaxConnections c
              + Z.of_nat (count_stages is_pending
                            (sessions (world_run c sched)))).
Proof.
  intros c sched Hlen.
  pose proof (world_run_inv sched _ (world_start_inv c)) as Hinv.
  fold (world_run c sched) in Hinv.
  destruct (Hinv Hlen) as (Hc & Hlow & Hok).
  pose proof (count_stages_le_length is_live (sessions (world_run c sched))).
  pose proof (live_split (sessions (world_run c sched))) as Hsplit.
  assert (MaxConnections (client (world_run c sched)) = MaxConnections c)
    as Hmax by (unfold world_run; rewrite world_run_max; reflexivity).
  split; [exact Hc|].
  split; [lia|].
  split; [lia|].
  intros Hpos.
  rewrite <- Hmax in Hpos.
  pose proof (admitted_are_low _ _ Hpos Hok) as Hadm.
  specialize (Hlow (MaxConnections (client (world_run c sched)))
                   ltac:(lia)).
  rewrite Hmax in *. lia.
Qed.

(** Two sessions arrive with a limit of one; the second is rejected, and
    until it returns the counter stands at two. *)
Definition two_arrivals : list Move := [Arrive; Arrive; Step 0; Step 1].

Example two_arrivals_counter :
  counter (world_run (demoClient 1 0) two_arrivals) = 2.
Proof. reflexivity. Qed.

Example second_arrival_rejected :
  sessions (world_run (demoClient 1 0)
              (two_arrivals ++ [Step 0; Step 1]))
  = [Tunnelling 1; Rejected 2]
  /\ counter (world_run (demoClient 1 0)
                (two_arrivals ++ [Step 0; Step 1; Step 1])) = 1.
Proof. split; reflexivity. Qed.

Lemma counter_counts_live_sessions_witness :
  counter (world_run (demoClient 1 0) two_arrivals) = 2%Z
  /\ Z.of_nat (count_stages is_admitted
                 (sessions (world_run (demoClient 1 0) two_arrivals))) <= 1.
Proof.
  pose proof (counter_counts_live_sessions (demoClient 1 0) two_arrivals)
    as H.
  destruct H as (H1 & _ & _ & H4).
  - vm_compute. reflexivity.
  - split; [exact H1|]. apply H4. reflexivity.
Defined.

(** The counter itself is not bounded by the limit at every point. *)
Lemma counter_exceeds_max :
  0 < MaxConnections (demoClient 1 0)
  /\ MaxConnections (demoClient 1 0)
     < counter (world_run (demoClient 1 0) two_arrivals).
Proof. split; reflexivity. Qed.

(** *** More on [handleConn]: what it returns and in which order it acts *)

Lemma keepAliveBlock_events env e :
  In e (keepAliveBlock env) ->
  (exists p b, e = SetKeepAlive p b) \/
  (exists p d, e = SetKeepAlivePeriod p d) \/
  (exists l, e = Log l).
Proof.
  unfold keepAliveBlock.
  destruct (isKeepAliver env);
    [destruct (setKeepAliveResult env);
     [|destruct (setKeepAlivePeriodResult env)]|];
    simpl; intros H;
    repeat (destruct H as [<-|H]; [eauto 6|]); contradiction.
Qed.

Lemma relayEvents_events st e :
  In e (relayEvents st) -> exists d a, e = InRelay d a.
Proof.
  unfold relayEvents. intros H. apply in_map_iff in H.
  destruct H as (x & <- & _). eauto.
Qed.

(** Closes a goal whose hypothesis [H] puts an event into a list of
    events of other kinds. *)
Ltac not_among H :=
  exfalso;
  repeat (apply in_app_or in H; destruct H as [H|H]);
  try (apply keepAliveBlock_events in H;
       destruct H as [(? & ? & H)|[(? & ? & H)|(? & H)]]; discriminate H);
  try (apply relayEvents_events in H;
       destruct H as (? & ? & H); discriminate H);
  simpl in H;
  repeat (destruct H as [H|H]; [discriminate H|]);
  exact H.

(** X4.  The only errors [handleConn] returns are the four of the
    set-up: too many connections, the certificate source, the dial and
    the handshake, each wrapping its cause.  What ends the relay, be it
    a clean close or an I/O error, is logged and never returned: past
    the handshake the result is [nil]. *)
Theorem handleConn_returns_only_setup_errors :
  forall (c : Client) (env : SessionEnv) (err : error),
    outcome (handleConn c env) = Returned (Some err) ->
    (over_limit c (AddUint64 (connectionsCounter c) 1) = true /\
     err = errTooMany c)
    \/ (exists e, certResult env = Some e /\ err = errCert e)
    \/ (exists e, certResult env = None /\ dialResult env = Some e /\
                  err = errDial c e)
    \/ (exists e, certResult env = None /\ dialResult env = None /\
                  handshakeResult env = Some e /\ err = errHandshake e).
Proof.
  intros c env err.
  unfold handleConn, handleConn_body.
  destruct (over_limit c _) eqn:Hover; simpl.
  { intros H. inversion H. auto. }
  destruct (certResult env) as [e|]; simpl.
  { intros H. inversion H. right. left. eauto. }
  destruct (dialResult env) as [e|]; simpl.
  { intros H. inversion H. right. right. left. eauto. }
  destruct (handshakeResult env) as [e|]; simpl.
  { intros H. inversion H. right. right. right. eauto. }
  destruct (down (relayBlock env)); simpl; discriminate.
Qed.

Lemma handleConn_returns_only_setup_errors_witness :
  (over_limit (demoClient 0 0) (AddUint64 0 1) = true /\
   errDial (demoClient 0 0) errRefused = errTooMany (demoClient 0 0))
  \/ (exists e, certResult envDialFails = Some e /\
                errDial (demoClient 0 0) errRefused = errCert e)
  \/ (exists e, certResult envDialFails = None /\
                dialResult envDialFails = Some e /\
                errDial (demoClient 0 0) errRefused
                = errDial (demoClient 0 0) e)
  \/ (exists e, certResult envDialFails = None /\
                dialResult envDialFails = None /\
                handshakeResult envDialFails = Some e /\
                errDial (demoClient 0 0) errRefused = errHandshake e).
Proof.
  exact (handleConn_returns_only_setup_errors (demoClient 0 0) envDialFails
           (errDial (demoClient 0 0) errRefused) eq_refl).
Defined.

(** X5.  [handleConn] goes through its stages in order and never skips
    ahead: it asks for certificates only when admitted, dials only with
    certificates in hand, touches keep-alive and starts the handshake
    only on a dialed connection, and relays only after the handshake has
    succeeded. *)
Theorem handleConn_stage_order :
  forall (c : Client) (env : SessionEnv),
    (forall i b,
        In (FetchCert i b) (events (handleConn c env)) ->
        over_limit c (AddUint64 (connectionsCounter c) 1) = false)
    /\ (forall a,
        In (DialRemote a) (events (handleConn c env)) ->
        over_limit c (AddUint64 (connectionsCounter c) 1) = false /\
        certResult env = None)
    /\ (forall p b,
        In (SetKeepAlive p b) (events (handleConn c env)) ->
        certResult env = None /\ dialResult env = None)
    /\ (In Handshake (events (handleConn c env)) ->
        over_limit c (AddUint64 (connectionsCounter c) 1) = false /\
        certResult env = None /\ dialResult env = None)
    /\ (forall d a,
        In (InRelay d a) (events (handleConn c env)) ->
        certResult env = None /\ dialResult env = None /\
        handshakeResult env = None).
Proof.
  intros c env.
  rewrite handleConn_events.
  generalize (outcome (handleConn c env)). intros out.
  unfold handleConn_body.
  destruct (over_limit c _) eqn:Hover.
  { repeat split; intros; destruct out; not_among H. }
  destruct (certResult env) as [e|].
  { repeat split; try reflexivity; intros; destruct out; not_among H. }
  destruct (dialResult env) as [e|].
  { repeat split; try reflexivity; intros; destruct out; not_among H. }
  destruct (handshakeResult env) as [e|]; unfold snd.
  { repeat split; try reflexivity; intros; destruct out; not_among H. }
  repeat split; reflexivity.
Qed.

(** *** More on the shared counter *)

Lemma count_stages_zero_iff f l :
  count_stages f l = 0%nat <-> Forall (fun s => f s = false) l.
Proof.
  unfold count_stages. induction l as [|s l IH]; simpl.
  - split; auto.
  - destruct (f s) eqn:E; simpl.
    + split; [discriminate|]. intros H. inversion H. congruence.
    + rewrite IH. split; intros H; [constructor; auto | now inversion H].
Qed.

(** X6.  The counter reads zero exactly when no session is between its
    increment and its deferred decrement.  A session that has been
    started and has not run its increment yet is not counted, so a zero
    counter does not say that no [handleConn] has been started.  (Fewer
    than 2^64 sessions.) *)
Theorem counter_zero_iff_no_session_in_flight :
  forall (c : Client) (sched : list Move),
    Z.of_nat (List.length (sessions (world_run c sched))) < two64 ->
    (counter (world_run c sched) = 0 <->
     Forall (fun s => is_live s = false) (sessions (world_run c sched))).
Proof.
  intros c sched Hlen.
  pose proof (world_run_inv sched _ (world_start_inv c)) as Hinv.
  fold (world_run c sched) in Hinv.
  destruct (Hinv Hlen) as (Hc & _ & _).
  rewrite Hc, <- count_stages_zero_iff. lia.
Qed.

Lemma counter_zero_iff_no_session_in_flight_witness :
  counter (world_run (demoClient 1 0)
             (two_arrivals ++ [Step 0; Step 1; Step 1; Step 0])) = 0 <->
  Forall (fun s => is_live s = false)
         (sessions (world_run (demoClient 1 0)
                      (two_arrivals ++ [Step 0; Step 1; Step 1; Step 0]))).
Proof.
  apply (counter_zero_iff_no_session_in_flight (demoClient 1 0)
           (two_arrivals ++ [Step 0; Step 1; Step 1; Step 0])).
  vm_compute. reflexivity.
Defined.

(** Every session past the test stands where the test sent it, in every
    world, however many sessions there are. *)
Lemma world_step_stage_ok w m :
  Forall (stage_ok (client w)) (sessions w) ->
  Forall (stage_ok (client (world_step w m))) (sessions (world_step w m)).
Proof.
  destruct w as [c l]. destruct m as [|i]; simpl; intros H.
  - apply Forall_app. split; [exact H|]. constructor; simpl; auto.
  - destruct (step_at_effect c l i) as [E | (pre & s & post & -> & E)];
      rewrite E; simpl.
    + now apply stage_ok_set_counter.
    + apply Forall_app in H. destruct H as [Hpre Hpost].
      inversion Hpost as [|? ? Hs Hpost']; subst.
      apply stage_ok_set_counter, Forall_app.
      split; [exact Hpre|]. constructor; [|exact Hpost'].
      destruct s as [|a|a|a|]; simpl; auto.
      destruct (over_limit c a) eqn:Eo; simpl; exact Eo.
Qed.

Lemma world_run_stage_ok sched : forall w,
  Forall (stage_ok (client w)) (sessions w) ->
  Forall (stage_ok (client (fold_left world_step sched w)))
         (sessions (fold_left world_step sched w)).
Proof.
  induction sched as [|m sched IH]; simpl; intros w H; auto.
  apply IH, world_step_stage_ok, H.
Qed.

(** X7.  Whatever the interleaving, a session is turned away only when
    a limit is set and its own increment returned more than the limit,
    and a session that got through holds an increment result within the
    limit or runs without one.  With the limit at zero no session is ever
    turned away. *)
Theorem admission_follows_the_test :
  forall (c : Client) (sched : list Move) (s : Stage),
    In s (sessions (world_run c sched)) ->
    match s with
    | Rejected a => 0 < MaxConnections c < a
    | Tunnelling a => MaxConnections c <= 0 \/ a <= MaxConnections c
    | _ => True
    end.
Proof.
  intros c sched s Hin.
  pose proof (world_run_stage_ok sched (world_start c)
                (Forall_nil _)) as Hok.
  fold (world_run c sched) in Hok.
  rewrite Forall_forall in Hok. specialize (Hok s Hin).
  assert (MaxConnections (client (world_run c sched)) = MaxConnections c)
    as Hmax by (unfold world_run; rewrite world_run_max; reflexivity).
  destruct s as [|a|a|a|]; simpl in *; auto;
    unfold over_limit in Hok; rewrite Hmax in Hok.
  - apply andb_true_iff in Hok. rewrite !Z.ltb_lt in Hok. exact Hok.
  - apply andb_false_iff in Hok. rewrite !Z.ltb_ge in Hok. exact Hok.
Qed.

Lemma admission_follows_the_test_witness :
  0 < MaxConnections (demoClient 1 0) < 2.
Proof.
  exact (admission_follows_the_test (demoClient 1 0)
           (two_arrivals ++ [Step 0; Step 1]) (Rejected 2)
           (or_intror (or_introl eq_refl))).
Defined.

Lemma handleConn_keepalive_on_local_witness :
  (isKeepAliver envOk = true ->
   In (SetKeepAlive Local true) (events (handleConn (demoClient 0 0) envOk)))
  /\ (isKeepAliver envOk = false ->
      In (Log (Printf
           "KeepAlive not supported: long-running tcp connections may be killed by the OS."
           [])) (events (handleConn (demoClient 0 0) envOk)))
  /\ In Handshake (events (handleConn (demoClient 0 0) envOk)).
Proof.
  exact (handleConn_keepalive_on_local (demoClient 0 0) envOk
           eq_refl eq_refl eq_refl).
Defined.

End Session.

(* ===================================================================== *)
(** ** The acceptor, the shutdown and the lifecycle controller *)
(* ===================================================================== *)

Module Lifecycle.

Import Relay.
Import Session.

(** *** [listen] *)

(** [type Conn struct]: the instance name and the accepted connection,
    which a number stands for. *)
Record Conn : Type := mkConn {
  ConnInstance : string;
  ConnSocket : nat
}.

(** What one [l.Accept()] returns: a connection (a [*net.TCPConn] or
    not), a [net.Error] that is [Temporary()], met [elapsed] nanoseconds
    after the call started, or any other error. *)
Inductive AcceptResult : Type :=
| AcceptOk (socket : nat) (isTCP : bool)
| AcceptTemporary (err : error) (elapsed : Z)
| AcceptFatal (err : error).

Inductive ListenEvent : Type :=
| LLog (line : LogLine)
| LSleep (d : Z)
| LSetKeepAlive (socket : nat) (on : bool)
| LSetKeepAlivePeriod (socket : nat) (period : Z)
| LSend (conn : Conn)          (* [connSrc <- Conn{...}] *)
| LCloseListener.

(** The [for] loop of [listen] over the successive results of [Accept]:
    what it does, and the error it returns; [None] when the results run
    out, where the loop is waiting in [Accept]. *)
Fixpoint accept_loop (c : Client) (accepts : list AcceptResult)
  : list ListenEvent * option error :=
  match accepts with
  | [] => ([], None)
  | AcceptTemporary err elapsed :: rest =>
      let d := 10 * Millisecond - elapsed in
      ((if 0 <? d then [LSleep d] else []) ++ fst (accept_loop c rest),
       snd (accept_loop c rest))
  | AcceptFatal err :: _ =>
      ([LCloseListener],
       Some (Errorf "error in accept for on %v: %v"
                    [AStr (LocalAddr c); AErr err]))
  | AcceptOk socket isTCP :: rest =>
      ([LLog (Printf "new connection for %q" [AStr (LocalAddr c)])]
       ++ (if isTCP
           then [LSetKeepAlive socket true;
                 LSetKeepAlivePeriod socket (1 * Minute)]
           else [])
       ++ [LSend (mkConn (Instance c) socket)]
       ++ fst (accept_loop c rest),
       snd (accept_loop c rest))
  end.

(** [listen]: [bind] is the error of [net.Listen], if any. *)
Definition listen (c : Client) (bind : option error)
    (accepts : list AcceptResult) : list ListenEvent * option error :=
  match bind with
  | Some err => ([], Some (Errorf "error net.Listen: %s" [AErr err]))
  | None =>
      (LLog (Printf "listening on %q for remote DB instance %q"
                    [AStr (LocalAddr c); AStr (Instance c)])
       :: fst (accept_loop c accepts),
       snd (accept_loop c accepts))
  end.

(** *** [Shutdown] *)

(** [time.NewTicker(100*time.Millisecond)] *)
Definition tickPeriod : Z := 100 * Millisecond.

(** What [Shutdown] meets while it runs: [loads k] is what its [k]-th
    [atomic.LoadUint64(&c.connectionsCounter)] reads, other goroutines
    changing the counter in between; [tickFirst] says which case the
    [select] takes when a tick and the timeout are due at the same
    instant. *)
Record ShutdownEnv : Type := mkShutdownEnv {
  loads : nat -> Z;
  tickFirst : bool
}.

(** The number of ticks the [select] takes before it takes [<-term]:
    those due strictly before the timeout, and the one due with it when
    the tick goes first. *)
Definition ticks_before_term (timeout : Z) (env : ShutdownEnv) : nat :=
  if timeout <=? 0 then O
  else
    (Z.to_nat ((timeout - 1) / tickPeriod)%Z
     + (if tickFirst env && (timeout mod tickPeriod =? 0)%Z
        then 1 else 0))%nat.

(** The [for]/[select] loop, with [ticks] ticks to come before the
    timeout and [k] loads done so far: the number of loads done when it
    breaks, and whether it broke on a poll that read zero. *)
Fixpoint poll (env : ShutdownEnv) (ticks : nat) (k : nat) : nat * bool :=
  match ticks with
  | O => (k, false)
  | S ticks' =>
      if 0 <? loads env k then poll env ticks' (S k) else (S k, true)
  end.

Record ShutdownRun : Type := mkShutdownRun {
  shutdown_result : option error;
  shutdown_elapsed : Z;
  shutdown_loads : nat;
  shutdown_log : list LogLine
}.

Definition errStillActive (active timeout : Z) : error :=
  Errorf "%d active connections still exist after waiting for %v"
         [ANum active; ADuration timeout].

Definition Shutdown (timeout : Z) (env : ShutdownEnv) : ShutdownRun :=
  let ticks := ticks_before_term timeout env in
  let k := fst (poll env ticks O) in
  let drained := snd (poll env ticks O) in
  let active := loads env k in
  mkShutdownRun
    (if active =? 0 then None else Some (errStillActive active timeout))
    (if drained then Z.of_nat k * tickPeriod else Z.max 0 timeout)
    (S k)
    (if drained
     then [Printf "no connections to wait, bailing out" []]
     else []).

(** What the loop guarantees when it breaks: every poll before the last
    read a positive count; it broke on a poll that did not, or it used
    up all the ticks. *)
Lemma poll_spec env : forall ticks k,
  (k <= fst (poll env ticks k) <= k + ticks)%nat
  /\ (forall j, (k <= j)%nat -> (S j < fst (poll env ticks k))%nat ->
        0 < loads env j)
  /\ (snd (poll env ticks k) = true ->
      exists j, fst (poll env ticks k) = S j /\ (k <= j)%nat
                /\ loads env j <= 0)
  /\ (snd (poll env ticks k) = false ->
      fst (poll env ticks k) = (k + ticks)%nat
      /\ forall j, (k <= j < k + ticks)%nat -> 0 < loads env j).
Proof.
  induction ticks as [|ticks IH]; intros k; simpl.
  - split; [lia|]. split; [intros; lia|]. split; [discriminate|].
    intros _. split; [lia | intros; lia].
  - destruct (0 <? loads env k) eqn:E.
    + apply Z.ltb_lt in E.
      destruct (IH (S k)) as (Hr & Hpos & Hd & Hn).
      split; [lia|]. split; [|split].
      * intros j Hj Hlt.
        destruct (Nat.eq_dec j k) as [->|Hne]; [exact E|].
        apply Hpos; lia.
      * intros Hs. destruct (Hd Hs) as (j & Hj & Hle & Hz).
        exists j. repeat split; auto. lia.
      * intros Hs. destruct (Hn Hs) as (Hk & Hall).
        split; [lia|]. intros j Hj.
        destruct (Nat.eq_dec j k) as [->|Hne]; [exact E|].
        apply Hall; lia.
    + apply Z.ltb_ge in E. simpl.
      split; [lia|]. split; [intros; lia|]. split.
      * intros _. exists k. repeat split; auto.
      * discriminate.
Qed.

Lemma ticks_before_term_bound timeout env :
  0 < timeout ->
  Z.of_nat (ticks_before_term timeout env) * tickPeriod <= timeout.
Proof.
  intros Hpos. unfold ticks_before_term.
  assert (0 < tickPeriod) as HP by reflexivity.
  assert ((timeout <=? 0) = false) as -> by (apply Z.leb_gt; lia).
  pose proof (Z.div_mod (timeout - 1) tickPeriod ltac:(lia)) as Hdm.
  pose proof (Z.mod_pos_bound (timeout - 1) tickPeriod HP) as Hmb.
  assert (0 <= (timeout - 1) / tickPeriod) as Hq
    by (apply Z.div_pos; lia).
  rewrite Nat2Z.inj_add, Z2Nat.id by exact Hq.
  destruct (tickFirst env && (timeout mod tickPeriod =? 0)) eqn:E.
  - apply andb_true_iff in E. destruct E as [_ E]. apply Z.eqb_eq in E.
    pose proof (Z.div_mod timeout tickPeriod ltac:(lia)) as Hdm'.
    rewrite E in Hdm'.
    assert ((timeout - 1) / tickPeriod = timeout / tickPeriod - 1) as ->.
    { symmetry. apply (Z.div_unique (timeout - 1) tickPeriod
                         (timeout / tickPeriod - 1) (tickPeriod - 1)); lia. }
    change (Z.of_nat 1) with 1. lia.
  - change (Z.of_nat 0) with 0. lia.
Qed.


(** As this model counts time, [Shutdown] never takes longer than the
    timeout. *)
Lemma Shutdown_bounded timeout env :
  shutdown_elapsed (Shutdown timeout env) <= Z.max 0 timeout.
Proof.
  unfold Shutdown; simpl.
  destruct (snd (poll env (ticks_before_term timeout env) O)) eqn:Hd; [|lia].
  destruct (poll_spec env (ticks_before_term timeout env) O) as (Hr & _).
  destruct (Z_lt_le_dec 0 timeout) as [Hpos|Hneg].
  - pose proof (ticks_before_term_bound timeout env Hpos) as Hb.
    assert (0 < tickPeriod) by reflexivity. nia.
  - unfold ticks_before_term in *.
    assert ((timeout <=? 0) = true) as E by (apply Z.leb_le; lia).
    rewrite E in *. simpl in Hd. discriminate.
Qed.


(** Three polls read 2, 1 and 0, and a session increments the counter
    before [Shutdown] reads it again. *)
Definition racingLoads (k : nat) : Z :=
  match k with
  | 0%nat => 2
  | 1%nat => 1
  | 2%nat => 0
  | _ => 1
  end.

(** All sessions are gone at the third poll and none comes after. *)
Definition drainingLoads (k : nat) : Z :=
  match k with
  | 0%nat => 2
  | 1%nat => 1
  | _ => 0
  end.

Example Shutdown_drains :
  Shutdown Second (mkShutdownEnv drainingLoads false)
  = mkShutdownRun None (300 * Millisecond) 4
      [Printf "no connections to wait, bailing out" []].
Proof. vm_compute. reflexivity. Qed.

Example Shutdown_times_out :
  Shutdown Second (mkShutdownEnv (fun _ => 3) false)
  = mkShutdownRun (Some (errStillActive 3 Second)) Second 10 [].
Proof. vm_compute. reflexivity. Qed.

(** C8, on the code.  [Shutdown] reads the counter a second time after
    the loop.  Here the third poll reads zero, 300 ms into a timeout of
    one second, and by the second read a session has incremented the
    counter: [Shutdown] returns at once, with the failure that one
    connection is still active after waiting for one second. *)
Theorem Shutdown_fails_before_timeout :
  Shutdown Second (mkShutdownEnv racingLoads false)
  = mkShutdownRun (Some (errStillActive 1 Second)) (300 * Millisecond) 4
      [Printf "no connections to wait, bailing out" []]
  /\ shutdown_elapsed (Shutdown Second (mkShutdownEnv racingLoads false))
     < Second.
Proof. split; vm_compute; reflexivity. Qed.

(** *** [Run] *)

(** The goroutine started by [Run]: the events of [listen] still to
    come and the error it will return, or gone. *)
Inductive Listener : Type :=
| Listening (todo : list ListenEvent) (final : option error)
| Exited.

Record RunState : Type := mkRunState {
  listener : Listener;
  connSrc : option Conn;            (* the buffer of [make(chan Conn, 1)] *)
  cancelled : bool;                 (* [ctx.Done()] is closed *)
  returned : option (option error); (* what [Run] returned, once it has *)
  run_log : list LogLine;
  handlers : list Conn              (* [go c.handleConn(...)] started *)
}.

(** What can happen next: the listener goroutine takes a step, the
    context is cancelled, or the [select] of [Run] takes one of its two
    cases. *)
Inductive RunMove : Type :=
| MListener
| MCancel
| MSelectDone
| MSelectConn.

Definition listener_step (st : RunState) : RunState :=
  match listener st with
  | Exited => st
  | Listening [] None => st            (* waiting in [Accept] *)
  | Listening [] (Some err) =>
      mkRunState Exited (connSrc st) (cancelled st) (returned st)
                 (run_log st ++ [Printf "listen error: %s" [AErr err]])
                 (handlers st)
  | Listening (LSend conn :: todo) final =>
      match connSrc st with
      | Some _ => st                   (* the channel is full *)
      | None =>
          mkRunState (Listening todo final) (Some conn) (cancelled st)
                     (returned st) (run_log st) (handlers st)
      end
  | Listening (LLog line :: todo) final =>
      mkRunState (Listening todo final) (connSrc st) (cancelled st)
                 (returned st) (run_log st ++ [line]) (handlers st)
  | Listening (_ :: todo) final =>
      mkRunState (Listening todo final) (connSrc st) (cancelled st)
                 (returned st) (run_log st) (handlers st)
  end.

Definition errDuringShutdown (err : error) : error :=
  Errorf "error during shutdown: %v" [AErr err].

Section RunLoop.

(** What the call [c.Shutdown(termTimeout)] will meet. *)
Variable senv : ShutdownEnv.

Definition termTimeout : Z := Second * 1.

Definition run_step (st : RunState) (m : RunMove) : RunState :=
  match m with
  | MListener => listener_step st
  | MCancel =>
      mkRunState (listener st) (connSrc st) true (returned st)
                 (run_log st) (handlers st)
  | MSelectDone =>
      match returned st, cancelled st with
      | None, true =>
          mkRunState (listener st) (connSrc st) true
            (Some (match shutdown_result (Shutdown termTimeout senv) with
                   | Some err => Some (errDuringShutdown err)
                   | None => None
                   end))
            (run_log st
             ++ [Printf "received context cancellation. Waiting up to %s before terminating."
                        [ADuration termTimeout]]
             ++ shutdown_log (Shutdown termTimeout senv))
            (handlers st)
      | _, _ => st
      end
  | MSelectConn =>
      match returned st, connSrc st with
      | None, Some conn =>
          mkRunState (listener st) None (cancelled st) None
                     (run_log st) (handlers st ++ [conn])
      | _, _ => st
      end
  end.

(** [Run], under a schedule, for a client whose [net.Listen] and
    [Accept] answer as given. *)
Definition Run (c : Client) (bind : option error)
    (accepts : list AcceptResult) (sched : list RunMove) : RunState :=
  fold_left run_step sched
    (mkRunState (Listening (fst (listen c bind accepts))
                           (snd (listen c bind accepts)))
                None false None [] []).





Lemma listener_step_keeps st :
  cancelled (listener_step st) = cancelled st
  /\ returned (listener_step st) = returned st
  /\ exists more, run_log (listener_step st) = run_log st ++ more.
Proof.
  unfold listener_step.
  destruct (listener st) as [[|[line|d|sk on|sk per|conn|] todo] [err|]|];
    simpl; try (destruct (connSrc st); simpl);
    repeat split; eauto using app_nil_r;
    exists []; now rewrite app_nil_r.
Qed.






(** What [listen] returns on a bind failure and on a fatal accept
    error. *)
Lemma listen_bind_failure c err accepts :
  listen c (Some err) accepts
  = ([], Some (Errorf "error net.Listen: %s" [AErr err])).
Proof. reflexivity. Qed.

(** A fatal accept error closes the listener and ends the loop with
    that error, whatever [Accept] would have answered next ... *)
Lemma accept_loop_fatal c err after :
  accept_loop c (AcceptFatal err :: after)
  = ([LCloseListener],
     Some (Errorf "error in accept for on %v: %v"
                  [AStr (LocalAddr c); AErr err])).
Proof. reflexivity. Qed.

(** ... while a temporary one is slept over, for what is left of ten
    milliseconds, and the loop goes on with the listener open. *)
Lemma accept_loop_temporary c err elapsed rest :
  accept_loop c (AcceptTemporary err elapsed :: rest)
  = ((if 0 <? 10 * Millisecond - elapsed
      then [LSleep (10 * Millisecond - elapsed)] else [])
     ++ fst (accept_loop c rest),
     snd (accept_loop c rest)).
Proof. reflexivity. Qed.

(** An accepted connection is logged, given keep-alive when it is a TCP
    connection, and sent; the loop goes on. *)
Lemma accept_loop_ok c socket isTCP rest :
  accept_loop c (AcceptOk socket isTCP :: rest)
  = ([LLog (Printf "new connection for %q" [AStr (LocalAddr c)])]
     ++ (if isTCP
         then [LSetKeepAlive socket true;
               LSetKeepAlivePeriod socket (1 * Minute)]
         else [])
     ++ [LSend (mkConn (Instance c) socket)]
     ++ fst (accept_loop c rest),
     snd (accept_loop c rest)).
Proof. reflexivity. Qed.



End RunLoop.

(** *** Runs of [Run] whose listener fails *)

Definition errInUse : error := LibErr "bind: address already in use".
Definition errListenerClosed : error := LibErr "accept: too many open files".

Definition quiet : ShutdownEnv := mkShutdownEnv (fun _ => 0) false.

(** The port is taken.  The listener goroutine logs the error and ends;
    [Run] goes on selecting, and has not returned. *)
Example Run_after_bind_failure :
  Run quiet (demoClient 0 0) (Some errInUse) []
      [MListener; MSelectConn; MSelectDone; MListener; MSelectConn]
  = mkRunState Exited None false None
      [Printf "listen error: %s"
              [AErr (Errorf "error net.Listen: %s" [AErr errInUse])]]
      [].
Proof. reflexivity. Qed.

(** One connection is accepted, then [Accept] fails for good: the
    listener is closed, the error logged, and [Run] is still running,
    with the one handler it started. *)
Example Run_after_fatal_accept :
  Run quiet (demoClient 0 0) None [AcceptOk 7 true; AcceptFatal errListenerClosed]
      [MListener; MListener; MListener; MListener; MListener; MSelectConn;
       MListener; MListener; MSelectConn; MSelectDone]
  = mkRunState Exited None false None
      [Printf "listening on %q for remote DB instance %q"
              [AStr "127.0.0.1:3307"; AStr "X"];
       Printf "new connection for %q" [AStr "127.0.0.1:3307"];
       Printf "listen error: %s"
              [AErr (Errorf "error in accept for on %v: %v"
                            [AStr "127.0.0.1:3307";
                             AErr errListenerClosed])]]
      [mkConn "X" 7].
Proof. reflexivity. Qed.



(** *** More on [listen]: dispatch, the listener, the back-off *)

(** The connections a list of events sends on [connSrc], in order. *)
Definition sends (evs : list ListenEvent) : list Conn :=
  flat_map (fun e => match e with LSend conn => [conn] | _ => [] end) evs.

(** The sockets [Accept] hands out before its first fatal error. *)
Fixpoint accepted_before_fatal (accepts : list AcceptResult) : list nat :=
  match accepts with
  | [] => []
  | AcceptOk socket _ :: rest => socket :: accepted_before_fatal rest
  | AcceptTemporary _ _ :: rest => accepted_before_fatal rest
  | AcceptFatal _ :: _ => []
  end.

Definition is_fatal (r : AcceptResult) : Prop :=
  match r with AcceptFatal _ => True | _ => False end.

Definition errAccept (c : Client) (err : error) : error :=
  Errorf "error in accept for on %v: %v" [AStr (LocalAddr c); AErr err].

Lemma sends_app evs1 evs2 : sends (evs1 ++ evs2) = sends evs1 ++ sends evs2.
Proof. unfold sends. apply flat_map_app. Qed.

Lemma accept_loop_sends c accepts :
  sends (fst (accept_loop c accepts))
  = map (mkConn (Instance c)) (accepted_before_fatal accepts).
Proof.
  induction accepts as [|[socket isTCP|err elapsed|err] rest IH].
  - reflexivity.
  - rewrite accept_loop_ok. cbn [fst snd].
    rewrite !sends_app, IH. destruct isTCP; reflexivity.
  - rewrite accept_loop_temporary. cbn [fst snd].
    rewrite sends_app, IH.
    destruct (0 <? 10 * Millisecond - elapsed); reflexivity.
  - reflexivity.
Qed.

(** X10.  [listen] sends on [connSrc] exactly the connections that
    [Accept] returned before its first fatal error, once each and in the
    order they were accepted, every one with the client's instance name;
    temporary errors in between lose none, and a failed bind sends
    nothing. *)
Theorem listen_dispatches_in_order :
  forall (c : Client) (bind : option error) (accepts : list AcceptResult),
    sends (fst (listen c bind accepts))
    = match bind with
      | Some _ => []
      | None => map (mkConn (Instance c)) (accepted_before_fatal accepts)
      end.
Proof.
  intros c [err|] accepts; [reflexivity|].
  unfold listen. cbn [fst snd].
  change (sends (?e :: ?l)) with (sends [e] ++ sends l).
  rewrite accept_loop_sends. reflexivity.
Qed.

(** X11.  The accept loop ends only on a fatal error, and closes the
    listener then and only then: while its result is still open the
    listener has not been closed and no fatal error has occurred; when
    it returns, it returns the first fatal error, wrapped, and closing
    the listener was the last thing it did and was done once. *)
Theorem accept_loop_closes_on_fatal_only :
  forall (c : Client) (accepts : list AcceptResult),
    match snd (accept_loop c accepts) with
    | None =>
        ~ In LCloseListener (fst (accept_loop c accepts)) /\
        Forall (fun r => ~ is_fatal r) accepts
    | Some err =>
        exists before e after evs,
          accepts = before ++ AcceptFatal e :: after /\
          Forall (fun r => ~ is_fatal r) before /\
          err = errAccept c e /\
          fst (accept_loop c accepts) = evs ++ [LCloseListener] /\
          ~ In LCloseListener evs
    end.
Proof.
  intros c accepts.
  induction accepts as [|[socket isTCP|err elapsed|err] rest IH].
  - simpl. split; [intros [] | constructor].
  - rewrite accept_loop_ok. cbn [fst snd].
    destruct (snd (accept_loop c rest)) as [e0|].
    + destruct IH as (before & e & after & evs & -> & Hb & -> & Hev & Hno).
      exists (AcceptOk socket isTCP :: before), e, after.
      eexists. split; [reflexivity|].
      split; [constructor; [intros []|exact Hb]|].
      split; [reflexivity|].
      rewrite Hev. split.
      * rewrite !app_assoc. reflexivity.
      * intros H. repeat (apply in_app_or in H; destruct H as [H|H]);
          try (apply Hno; exact H);
          destruct isTCP; simpl in H;
          repeat (destruct H as [H|H]; [discriminate H|]); exact H.
    + destruct IH as (Hno & Hb).
      split; [|constructor; [intros []|exact Hb]].
      intros H. repeat (apply in_app_or in H; destruct H as [H|H]);
        try (apply Hno; exact H);
        destruct isTCP; simpl in H;
        repeat (destruct H as [H|H]; [discriminate H|]); exact H.
  - rewrite accept_loop_temporary. cbn [fst snd].
    set (d0 := 10 * Millisecond - elapsed) in *.
    destruct (snd (accept_loop c rest)) as [e0|].
    + destruct IH as (before & e & after & evs & -> & Hb & -> & Hev & Hno).
      exists (AcceptTemporary err elapsed :: before), e, after.
      eexists. split; [reflexivity|].
      split; [constructor; [intros []|exact Hb]|].
      split; [reflexivity|].
      rewrite Hev. split.
      * rewrite app_assoc. reflexivity.
      * intros H. apply in_app_or in H. destruct H as [H|H];
          [|apply Hno; exact H].
        destruct (0 <? d0); simpl in H;
          repeat (destruct H as [H|H]; [discriminate H|]); exact H.
    + destruct IH as (Hno & Hb).
      split; [|constructor; [intros []|exact Hb]].
      intros H. apply in_app_or in H. destruct H as [H|H];
        [|apply Hno; exact H].
      destruct (0 <? d0); simpl in H;
        repeat (destruct H as [H|H]; [discriminate H|]); exact H.
  - rewrite accept_loop_fatal. cbn [fst snd].
    exists [], err, rest, [].
    split; [reflexivity|]. split; [constructor|].
    split; [reflexivity|]. split; [reflexivity|]. intros [].
Qed.

(** X12.  Every sleep of the accept loop follows a temporary error, is
    positive, and lasts what is left of ten milliseconds since the call
    of [Accept] began; so it never exceeds ten milliseconds. *)
Theorem accept_backoff_bounded :
  forall (c : Client) (accepts : list AcceptResult) (d : Z),
    In (LSleep d) (fst (accept_loop c accepts)) ->
    0 < d /\
    exists err elapsed,
      In (AcceptTemporary err elapsed) accepts /\
      d = 10 * Millisecond - elapsed /\
      (0 <= elapsed -> d <= 10 * Millisecond).
Proof.
  intros c accepts d.
  induction accepts as [|[socket isTCP|err elapsed|err] rest IH].
  - intros [].
  - rewrite accept_loop_ok. cbn [fst snd]. intros H.
    repeat (apply in_app_or in H; destruct H as [H|H]).
    + simpl in H. destruct H as [H|[]]. discriminate H.
    + destruct isTCP; simpl in H;
        repeat (destruct H as [H|H]; [discriminate H|]); destruct H.
    + simpl in H. destruct H as [H|[]]. discriminate H.
    + destruct (IH H) as (Hd & e & el & Hin & Heq).
      split; [exact Hd|]. exists e, el. split; [right; exact Hin|exact Heq].
  - rewrite accept_loop_temporary. cbn [fst snd].
    set (d0 := 10 * Millisecond - elapsed) in *. intros H.
    apply in_app_or in H. destruct H as [H|H].
    + destruct (0 <? d0) eqn:E; [|destruct H].
      destruct H as [H|[]]. inversion H; subst d.
      apply Z.ltb_lt in E. split; [exact E|].
      exists err, elapsed. split; [left; reflexivity|].
      split; [reflexivity | unfold d0; lia].
    + destruct (IH H) as (Hd & e & el & Hin & Heq).
      split; [exact Hd|]. exists e, el. split; [right; exact Hin|exact Heq].
  - rewrite accept_loop_fatal. cbn [fst snd]. intros [H|[]]. discriminate H.
Qed.

Lemma accept_backoff_bounded_witness :
  0 < 7 * Millisecond /\
  exists err elapsed,
    In (AcceptTemporary err elapsed)
       [AcceptTemporary errListenerClosed (3 * Millisecond); AcceptOk 1 true]
    /\ 7 * Millisecond = 10 * Millisecond - elapsed
    /\ (0 <= elapsed -> 7 * Millisecond <= 10 * Millisecond).
Proof.
  exact (accept_backoff_bounded (demoClient 0 0)
           [AcceptTemporary errListenerClosed (3 * Millisecond); AcceptOk 1 true]
           (7 * Millisecond) (or_introl eq_refl)).
Defined.

(** *** More on [Shutdown] *)


(** X15.  With a timeout of zero or less [Shutdown] does not wait at
    all: it takes no tick, reads the counter once and returns at once,
    [nil] if it read zero and the failure with that count otherwise. *)
Theorem Shutdown_without_waiting :
  forall (timeout : Z) (env : ShutdownEnv),
    timeout <= 0 ->
    Shutdown timeout env
    = mkShutdownRun
        (if loads env O =? 0 then None
         else Some (errStillActive (loads env O) timeout))
        0 1 [].
Proof.
  intros timeout env H. unfold Shutdown, ticks_before_term.
  assert ((timeout <=? 0) = true) as -> by (apply Z.leb_le; exact H).
  simpl. f_equal. lia.
Qed.

Lemma Shutdown_without_waiting_witness :
  Shutdown 0 (mkShutdownEnv racingLoads false)
  = mkShutdownRun (Some (errStillActive 2 0)) 0 1 [].
Proof.
  exact (Shutdown_without_waiting 0 (mkShutdownEnv racingLoads false)
           (Z.le_refl 0)).
Defined.

(** *** More on [Run]: from the acceptor to the handlers *)

Definition buffered (ch : option Conn) : list Conn :=
  match ch with Some conn => [conn] | None => [] end.

Definition pending (l : Listener) : list Conn :=
  match l with
  | Listening todo _ => sends todo
  | Exited => []
  end.

(** The connections on their way: those handed to a handler, the one in
    the channel, and those the listener has yet to send. *)
Definition in_transit (st : RunState) : list Conn :=
  handlers st ++ buffered (connSrc st) ++ pending (listener st).

Lemma listener_step_transit st :
  in_transit (listener_step st) = in_transit st
  /\ handlers (listener_step st) = handlers st.
Proof.
  unfold in_transit, listener_step.
  destruct (listener st) as [[|[line|d|sk on|sk per|conn|] todo] [err|]|]
    eqn:E; simpl; try (destruct (connSrc st) eqn:Ec; simpl);
    rewrite ?E, ?Ec; simpl; split; reflexivity.
Qed.

Section RunFacts.

Variable senv : ShutdownEnv.

Lemma run_step_transit st m :
  in_transit (run_step senv st m) = in_transit st.
Proof.
  destruct m; simpl.
  - apply listener_step_transit.
  - reflexivity.
  - destruct (returned st); [reflexivity|].
    destruct (cancelled st); reflexivity.
  - destruct (returned st); [reflexivity|].
    destruct (connSrc st) as [conn|] eqn:Ec; [|reflexivity].
    unfold in_transit. simpl. rewrite Ec. simpl.
    rewrite <- app_assoc. reflexivity.
Qed.

Lemma run_fold_transit sched : forall st,
  in_transit (fold_left (run_step senv) sched st) = in_transit st.
Proof.
  induction sched as [|m sched IH]; simpl; intros st; [reflexivity|].
  rewrite IH. apply run_step_transit.
Qed.

(** X16.  Between the acceptor and the handlers no connection is lost,
    duplicated or reordered: at every point of every run, the
    connections given to a handler, then the one waiting in the channel,
    then those the listener has still to send, are together the
    connections [Accept] returned before its first fatal error, in that
    order.  So the handlers started are always a prefix of them. *)
Theorem Run_dispatches_each_connection_once :
  forall (c : Client) (bind : option error) (accepts : list AcceptResult)
         (sched : list RunMove),
    handlers (Run senv c bind accepts sched)
    ++ buffered (connSrc (Run senv c bind accepts sched))
    ++ pending (listener (Run senv c bind accepts sched))
    = match bind with
      | Some _ => []
      | None => map (mkConn (Instance c)) (accepted_before_fatal accepts)
      end.
Proof.
  intros c bind accepts sched.
  change (in_transit (Run senv c bind accepts sched)
          = match bind with
            | Some _ => []
            | None => map (mkConn (Instance c)) (accepted_before_fatal accepts)
            end).
  unfold Run. rewrite run_fold_transit.
  unfold in_transit, pending, buffered, handlers, connSrc, listener.
  destruct bind as [err|]; [reflexivity|].
  unfold listen. unfold fst at 1.
  change (sends (?e :: ?l)) with (sends [e] ++ sends l).
  rewrite accept_loop_sends. reflexivity.
Qed.

Lemma run_step_after_return st m r :
  returned st = Some r ->
  returned (run_step senv st m) = Some r
  /\ handlers (run_step senv st m) = handlers st.
Proof.
  intros H. destruct m; simpl.
  - destruct (listener_step_keeps st) as (_ & -> & _).
    destruct (listener_step_transit st) as (_ & ->). auto.
  - auto.
  - rewrite H. auto.
  - rewrite H. auto.
Qed.

(** X17.  Once [Run] has returned, nothing more is dispatched: however
    the listener goroutine goes on, the result stays what it was and no
    further handler is started, so a connection accepted from then on
    is never served. *)
Theorem Run_stops_dispatching_once_returned :
  forall (c : Client) (bind : option error) (accepts : list AcceptResult)
         (sched more : list RunMove) (r : option error),
    returned (Run senv c bind accepts sched) = Some r ->
    returned (Run senv c bind accepts (sched ++ more)) = Some r
    /\ handlers (Run senv c bind accepts (sched ++ more))
       = handlers (Run senv c bind accepts sched).
Proof.
  intros c bind accepts sched more r.
  unfold Run. rewrite fold_left_app.
  generalize (fold_left (run_step senv) sched
                (mkRunState (Listening (fst (listen c bind accepts))
                                       (snd (listen c bind accepts)))
                            None false None [] [])).
  induction more as [|m more IH]; simpl; intros st H; [auto|].
  destruct (run_step_after_return st m r H) as (Hr & Hh).
  destruct (IH _ Hr) as (Hr' & Hh').
  split; [exact Hr'|]. rewrite Hh'. exact Hh.
Qed.

End RunFacts.

(** A connection accepted after the cancellation has been handled stays
    in the channel. *)
Example Run_leaves_late_connection_unserved :
  handlers (Run quiet (demoClient 0 0) None [AcceptOk 7 true]
              [MListener; MCancel; MSelectDone;
               MListener; MListener; MListener; MListener; MSelectConn])
  = []
  /\ connSrc (Run quiet (demoClient 0 0) None [AcceptOk 7 true]
                [MListener; MCancel; MSelectDone;
                 MListener; MListener; MListener; MListener; MSelectConn])
     = Some (mkConn "X" 7).
Proof. split; reflexivity. Qed.

Lemma Run_stops_dispatching_once_returned_witness :
  returned (Run quiet (demoClient 0 0) None [AcceptOk 7 true]
              ([MListener; MCancel; MSelectDone]
               ++ [MListener; MListener; MListener; MListener; MSelectConn]))
  = Some None
  /\ handlers (Run quiet (demoClient 0 0) None [AcceptOk 7 true]
                 ([MListener; MCancel; MSelectDone]
                  ++ [MListener; MListener; MListener; MListener;
                      MSelectConn]))
     = handlers (Run quiet (demoClient 0 0) None [AcceptOk 7 true]
                   [MListener; MCancel; MSelectDone]).
Proof.
  exact (Run_stops_dispatching_once_returned quiet (demoClient 0 0) None
           [AcceptOk 7 true] [MListener; MCancel; MSelectDone]
           [MListener; MListener; MListener; MListener; MSelectConn]
           None eq_refl).
Defined.

End Lifecycle.

(* ===================================================================== *)
(** ** Keep-alive on the two sockets of a session *)
(* ===================================================================== *)

Module Sockets.

Import Relay.
Import Session.
Import Lifecycle.

(** [net.Dialer], reduced to the field that decides on keep-alive. *)
Record Dialer : Type := mkDialer { KeepAlive : Z }.

(** [var d net.Dialer] (line 175): the zero value. *)
Definition zeroDialer : Dialer := mkDialer 0.

(** The default period of package [net] between keep-alive probes. *)
Definition defaultTCPKeepAlive : Z := 15 * Second.

(** What package [net] does to the TCP connection that a dialer returns:
    with a negative [KeepAlive] it leaves keep-alive off ([None]);
    otherwise it turns keep-alive on, with [KeepAlive] as the period, or
    with the default period when the field is zero. *)
Definition dialerKeepAlive (d : Dialer) : option Z :=
  if KeepAlive d <? 0 then None
  else Some (if KeepAlive d =? 0 then defaultTCPKeepAlive else KeepAlive d).

(** The keep-alive of [remoteConn] when [handleConn] hands it to
    [tls.Client] (line 197): the one the dialer of line 175 gave it,
    since nothing in between touches [remoteConn]; [None] when the
    session has no dialed connection. *)
Definition remoteKeepAlive (c : Client) (env : SessionEnv) : option Z :=
  if opened c env Remote then dialerKeepAlive zeroDialer else None.

Definition notSupportedLine : LogLine :=
  Printf
    "KeepAlive not supported: long-running tcp connections may be killed by the OS."
    [].






(** The accepted connection does not have the keep-alive methods: the
    session says so in its log and goes on; the dialed connection has
    keep-alive all the same. *)
Example keepalive_not_supported_on_local :
  events (handleConn (demoClient 0 0)
            (mkEnv None None false None None "127.0.0.1:3307"
                   (Some errBadCert) demo_res []))
  = [CounterAdd 1 1;
     FetchCert "X" "branch";
     DialRemote "backend:3306";
     Log notSupportedLine;
     Handshake;
     Close Remote;
     CounterAdd max_uint64 0]
  /\ remoteKeepAlive (demoClient 0 0)
       (mkEnv None None false None None "127.0.0.1:3307"
              (Some errBadCert) demo_res [])
     = Some (15 * Second).
Proof. split; reflexivity. Qed.

End Sockets.

(* ===================================================================== *)
(** ** The inbound server *)
(* ===================================================================== *)

Module Inbound.

Import Relay.

(** The three flags of [realMain], with their defaults. *)
Record Flags : Type := mkFlags {
  caPath : string;
  serverCertPath : string;
  serverKeyPath : string
}.

Definition defaultFlags : Flags :=
  mkFlags "testcerts/ca.pem" "testcerts/server-cert.pem"
          "testcerts/server-key.pem".

Definition localAddr : string := "127.0.0.1:3308".
Definition backendAddr : string := "127.0.0.1:3306".

(** One turn of the accept loop, as the outside world plays it:
    [l.Accept()] fails, or it returns a connection, for which [net.Dial]
    to the backend answers [dial] and, if that went well, the relay runs
    with the given results and schedule. *)
Inductive Visit : Type :=
| AcceptFails (err : error)
| Connection (socket : nat) (dial : option error)
             (res : Dir -> bool * error) (sched : list Dir).

(** What the outside world answers to [realMain]: [ioutil.ReadFile],
    [AppendCertsFromPEM] (whose result the code drops),
    [tls.LoadX509KeyPair], [net.Listen], and the turns of the loop. *)
Record ServerEnv : Type := mkServerEnv {
  readFileResult : option error;
  appendCertsOk : bool;
  loadKeyPairResult : option error;
  listenResult : option error;
  visits : list Visit
}.

Inductive ServerEvent : Type :=
| ReadFile (path : string)
| AppendCertsFromPEM
| LoadX509KeyPair (certPath keyPath : string)
| ServerLog (line : LogLine)
| ListenOn (addr : string)
| AcceptReturned (socket : nat)
| AcceptFailed
| DialBackend (addr : string)
| OnConnection (socket : nat) (d : Dir) (a : Action).

(** [realMain] never returns [nil]: it returns an error, or it is
    waiting in [Accept], or inside [copyThenClose]. *)
Inductive ServerOutcome : Type :=
| Exit (err : error)
| BlockedInAccept
| BlockedInRelay.

Definition errBackend (err : error) : error :=
  Errorf "couldn't connect to backend: %s" [AErr err].

(** [copyThenClose(backendConn, tlsConn, "remote conn", "local conn on
    "+backendAddr)]: the backend is the remote end, the accepted
    connection the local one. *)
Definition serverRelay (res : Dir -> bool * error) (sched : list Dir)
  : RelayState :=
  copyThenClose
    (report_server "remote conn" (String.append "local conn on " backendAddr))
    res sched.

Definition onConnection (socket : nat) (st : RelayState) : list ServerEvent :=
  map (fun x => OnConnection socket (fst x) (snd x)) (trace st).

Definition greet (socket : nat) : list ServerEvent :=
  [AcceptReturned socket;
   ServerLog (Printf "new connection for %q" [AStr backendAddr]);
   DialBackend backendAddr].

(** The [for] loop of [realMain]. *)
Fixpoint serve_loop (vs : list Visit) : ServerOutcome * list ServerEvent :=
  match vs with
  | [] => (BlockedInAccept, [])
  | AcceptFails err :: _ => (Exit err, [AcceptFailed])
  | Connection socket (Some err) _ _ :: _ =>
      (Exit (errBackend err), greet socket)
  | Connection socket None res sched :: rest =>
      match down (serverRelay res sched) with
      | Finished =>
          (fst (serve_loop rest),
           greet socket ++ onConnection socket (serverRelay res sched)
           ++ snd (serve_loop rest))
      | _ =>
          (BlockedInRelay,
           greet socket ++ onConnection socket (serverRelay res sched))
      end
  end.

Definition realMain (flags : Flags) (env : ServerEnv)
  : ServerOutcome * list ServerEvent :=
  match readFileResult env with
  | Some err => (Exit err, [ReadFile (caPath flags)])
  | None =>
      match loadKeyPairResult env with
      | Some err =>
          (Exit err,
           [ReadFile (caPath flags);
            AppendCertsFromPEM;
            LoadX509KeyPair (serverCertPath flags) (serverKeyPath flags)])
      | None =>
          match listenResult env with
          | Some err =>
              (Exit err,
               [ReadFile (caPath flags);
                AppendCertsFromPEM;
                LoadX509KeyPair (serverCertPath flags) (serverKeyPath flags);
                ServerLog (Printf "listening on %s" [AStr localAddr]);
                ListenOn localAddr])
          | None =>
              (fst (serve_loop (visits env)),
               [ReadFile (caPath flags);
                AppendCertsFromPEM;
                LoadX509KeyPair (serverCertPath flags) (serverKeyPath flags);
                ServerLog (Printf "listening on %s" [AStr localAddr]);
                ListenOn localAddr]
               ++ snd (serve_loop (visits env)))
          end
      end
  end.

(** A visit that runs to its end: the dial succeeds and the relay
    returns. *)
Definition completes (v : Visit) : Prop :=
  match v with
  | Connection _ None res sched => down (serverRelay res sched) = Finished
  | _ => False
  end.

Definition is_accept (e : ServerEvent) : bool :=
  match e with AcceptReturned _ => true | _ => false end.

Definition count_accepts (evs : list ServerEvent) : nat :=
  List.length (filter is_accept evs).

Lemma count_accepts_app l1 l2 :
  count_accepts (l1 ++ l2) = (count_accepts l1 + count_accepts l2)%nat.
Proof. unfold count_accepts. now rewrite filter_app, length_app. Qed.

Lemma onConnection_no_accept socket st :
  count_accepts (onConnection socket st) = 0%nat.
Proof.
  unfold onConnection, count_accepts.
  induction (trace st) as [|x tr IH]; simpl; [reflexivity | exact IH].
Qed.

Lemma onConnection_events socket st e :
  In e (onConnection socket st) -> exists d a, e = OnConnection socket d a.
Proof.
  unfold onConnection. intros H. apply in_map_iff in H.
  destruct H as (x & <- & _). eauto.
Qed.

(** X18.  The server handles one connection at a time and stops at the
    first turn that does not run to its end.  The turns split into those
    that completed, each with a successful dial and a relay that
    returned, and the rest, of which only the first is ever started: a
    failed [Accept], temporary or not, ends [realMain] with that error;
    a failed dial ends it with the backend error, nothing having been
    done on the accepted connection after the dial; a relay that has not
    returned keeps every later connection waiting.  No connection beyond
    that turn is accepted. *)
Theorem serve_loop_stops_at_first_incomplete_visit :
  forall vs : list Visit,
    exists done rest,
      vs = done ++ rest /\
      Forall completes done /\
      count_accepts (snd (serve_loop vs))
      = (List.length done
         + match rest with Connection _ _ _ _ :: _ => 1 | _ => 0 end)%nat /\
      match rest with
      | [] => fst (serve_loop vs) = BlockedInAccept
      | AcceptFails err :: _ => fst (serve_loop vs) = Exit err
      | Connection socket (Some err) _ _ :: _ =>
          fst (serve_loop vs) = Exit (errBackend err) /\
          exists evs, snd (serve_loop vs) = evs ++ greet socket
      | Connection socket None res sched :: _ =>
          fst (serve_loop vs) = BlockedInRelay /\
          down (serverRelay res sched) <> Finished
      end.
Proof.
  induction vs as [|[err|socket [err|] res sched] vs IH].
  - exists [], []. repeat split; constructor.
  - exists [], (AcceptFails err :: vs). repeat split; constructor.
  - exists [], (Connection socket (Some err) res sched :: vs).
    split; [reflexivity|]. split; [constructor|]. split; [reflexivity|].
    split; [reflexivity|]. exists []. reflexivity.
  - destruct (down (serverRelay res sched)) eqn:Hdown.
    1-5: exists [], (Connection socket None res sched :: vs);
      (split; [reflexivity|]); (split; [constructor|]);
      cbn [serve_loop]; rewrite Hdown; cbn [fst snd];
      rewrite count_accepts_app, onConnection_no_accept;
      (split; [reflexivity|]); (split; [reflexivity | discriminate]).
    destruct IH as (done & rest & -> & Hdone & Hcount & Hrest).
    exists (Connection socket None res sched :: done), rest.
    split; [reflexivity|].
    split; [constructor; [exact Hdown | exact Hdone]|].
    cbn [serve_loop]. rewrite Hdown. cbn [fst snd].
    split.
    + rewrite !count_accepts_app, onConnection_no_accept, Hcount.
      simpl. lia.
    + destruct rest as [|[e|s [e|] r sc] rest']; try exact Hrest.
      destruct Hrest as (Hout & evs & Hevs).
      split; [exact Hout|].
      exists (greet socket ++ onConnection socket (serverRelay res sched)
              ++ evs).
      rewrite Hevs, <- !app_assoc. reflexivity.
Qed.

(** X19.  [realMain] starts up in order and fails fast: it reads the
    key pair only after the CA file, binds only with both in hand, and
    accepts only once bound; an error of any of these steps is returned
    as it is.  Whether the CA file held any certificate plays no role,
    and the listening line is logged before the bind is attempted. *)
Theorem realMain_starts_in_order :
  forall (flags : Flags) (env : ServerEnv),
    (forall c k, In (LoadX509KeyPair c k) (snd (realMain flags env)) ->
                 readFileResult env = None)
    /\ (forall a, In (ListenOn a) (snd (realMain flags env)) ->
                  readFileResult env = None /\ loadKeyPairResult env = None /\
                  In (ServerLog (Printf "listening on %s" [AStr localAddr]))
                     (snd (realMain flags env)))
    /\ (forall e, In e (snd (realMain flags env)) ->
                  e = AcceptFailed \/ (exists s, e = AcceptReturned s) ->
                  readFileResult env = None /\ loadKeyPairResult env = None /\
                  listenResult env = None)
    /\ (forall err,
           readFileResult env = Some err \/
           (readFileResult env = None /\ loadKeyPairResult env = Some err) \/
           (readFileResult env = None /\ loadKeyPairResult env = None /\
            listenResult env = Some err) ->
           fst (realMain flags env) = Exit err)
    /\ realMain flags
         (mkServerEnv (readFileResult env) (negb (appendCertsOk env))
                      (loadKeyPairResult env) (listenResult env) (visits env))
       = realMain flags env.
Proof.
  intros flags env. unfold realMain.
  destruct (readFileResult env) as [e1|];
    [|destruct (loadKeyPairResult env) as [e2|];
      [|destruct (listenResult env) as [e3|]]]; cbn [fst snd].
  all: split; [intros c k H|].
  all: try (split; [intros a H|]).
  all: try (split; [intros e H H0|]).
  all: try (split; [intros err H | reflexivity]).
  all: try solve [decompose [and or] H; congruence].
  all: try solve [repeat split; try reflexivity; simpl; auto 8].
  all: exfalso; simpl in H;
    repeat (destruct H as [H|H];
            [first [ discriminate H
                   | subst e; destruct H0 as [H0|(s & H0)]; discriminate H0 ]|]);
    exact H.
Qed.

(** *** Runs of the server *)

Definition errBackendDown : error := LibErr "dial tcp: connection refused".
Definition errTemporary : error := LibErr "accept: temporary failure".

Definition fiveEach : list Dir :=
  [Upstream; Upstream; Upstream; Upstream; Upstream;
   Downstream; Downstream].

(** The first connection is relayed to its end; the backend is down for
    the second, which ends the server although a third client was
    waiting. *)
Example realMain_ends_on_dial_failure :
  fst (realMain defaultFlags
         (mkServerEnv None true None None
            [Connection 1 None demo_res fiveEach;
             Connection 2 (Some errBackendDown) demo_res [];
             Connection 3 None demo_res fiveEach]))
  = Exit (errBackend errBackendDown)
  /\ count_accepts
       (snd (realMain defaultFlags
               (mkServerEnv None true None None
                  [Connection 1 None demo_res fiveEach;
                   Connection 2 (Some errBackendDown) demo_res [];
                   Connection 3 None demo_res fiveEach]))) = 2%nat.
Proof. split; reflexivity. Qed.

(** Unlike the acceptor of the outbound proxy, the server does not sleep
    over a temporary accept error. *)
Example realMain_ends_on_any_accept_error :
  fst (realMain defaultFlags
         (mkServerEnv None true None None
            [AcceptFails errTemporary; Connection 1 None demo_res fiveEach]))
  = Exit errTemporary.
Proof. reflexivity. Qed.

End Inbound.
